(** * Pushgateway: the integration glue of [main.go] and the store contract

    The development has three layers.

    - [Storage]: the grouped metric store ([storage.NewDiskMetricStore] and
      its methods).  The package is imported by [main.go] but its code is not
      part of the sources at hand, so it is modelled from the specification.
    - [Serializer]: the single-owner request queue in front of the store,
      as an interleaving transition system.
    - [Main]: [main.go] itself: flags, internal metrics, the route table, the
      [/metrics] handler and the life cycle of the process. *)

From Stdlib Require Import ZArith String Ascii List Lia.
From stdpp Require Import base tactics option list strings pretty gmap fin_maps.

Local Open Scope string_scope.
Local Open Scope list_scope.

(** ** Shared vocabulary *)

(** A label is a (name, value) pair; a grouping key is a sequence of labels. *)
Abbreviation LabelPair := (string * string)%type.
Abbreviation GroupingKey := (list (string * string)).

Inductive MetricType := Counter | Gauge | Histogram | Summary | Untyped.

Global Instance MetricType_eq_dec : EqDecision MetricType.
Proof. solve_decision. Defined.

Inductive Error :=
| ErrMalformed     (* the payload failed validation *)
| ErrReserved      (* the grouping key uses a reserved label name *)
| ErrUnavailable   (* the store has accepted Shutdown *)
| ErrPersist.      (* the write of the snapshot file failed *)

Global Instance Error_eq_dec : EqDecision Error.
Proof. solve_decision. Defined.

(** Durations and instants are integers of nanoseconds, as [time.Duration]. *)
Definition Nanosecond : Z := 1.
Definition Second : Z := 1000000000 * Nanosecond.
Definition Minute : Z := 60 * Second.

(** [x] occurs before [y] in [l]. *)
Definition precedes {A} (x y : A) (l : list A) : Prop :=
  ∃ l1 l2 l3, l = l1 ++ x :: l2 ++ y :: l3.

(** * The grouped metric store *)

Module Storage.
Section WithValue.

(** Sample values are [float64] in the program; the store never computes
    with them, so their type is a parameter. *)
Context {Value : Type}.

Record Sample := {
  s_labels : list LabelPair;
  s_values : list Value;
}.

Record MetricFamily := {
  mf_name : string;
  mf_help : string;
  mf_type : MetricType;
  mf_samples : list Sample;
}.

Record MetricGroup := {
  g_families : gmap string MetricFamily;
  g_timestamp : Z;
}.

(** Modelled from the spec: the Group Table, "mapping GroupingKey to
    MetricGroup; a dirty flag and last-persisted timestamp for the whole
    table". *)
Record Table := {
  groups : gmap GroupingKey MetricGroup;
  dirty : bool;
  lastPersisted : Z;
}.

Definition emptyTable (now : Z) : Table :=
  {| groups := ∅; dirty := false; lastPersisted := now |}.

(** *** Grouping Key Codec *)

(** Modelled from the spec: the reserved label names a key may not use;
    the spec names "the metric name label". *)
Definition reservedLabelNames : list string := ["__name__"].

Fixpoint insertLabel (p : LabelPair) (k : GroupingKey) : GroupingKey :=
  match k with
  | [] => [p]
  | q :: k' =>
      if bool_decide (String.le p.1 q.1) then p :: q :: k'
      else q :: insertLabel p k'
  end.

(** Canonical form: the pairs sorted on the label name. *)
Definition canonical (labels : list LabelPair) : GroupingKey :=
  foldr insertLabel [] labels.

(** Modelled from the spec: the Grouping Key Codec, which rejects reserved
    names before any store mutation and otherwise returns the canonical
    key. *)
Definition newGroupingKey (labels : list LabelPair) : Error + GroupingKey :=
  if bool_decide (Exists (λ p, p.1 ∈ reservedLabelNames) labels)
  then inl ErrReserved
  else inr (canonical labels).

(** *** Push and Delete *)

Definition keyNames (key : GroupingKey) : list string := key.*1.

(** A sample collides with the key when it defines a label of the same
    name as one of the key's own labels. *)
Definition sampleCollides (key : GroupingKey) (s : Sample) : bool :=
  bool_decide (Exists (λ p, p.1 ∈ keyNames key) (s_labels s)).

Definition familyConsistent (f : MetricFamily) : bool :=
  bool_decide (NoDup (s_labels <$> mf_samples f)).

Definition familyValid (key : GroupingKey) (f : MetricFamily) : bool :=
  familyConsistent f && negb (existsb (sampleCollides key) (mf_samples f)).

(** Modelled from the spec: the validation [Push] performs.  Family names
    are unique within a group, every family has unique sample label sets,
    and no sample defines a label of the key. *)
Definition validPush (key : GroupingKey) (families : list MetricFamily) : bool :=
  bool_decide (NoDup (mf_name <$> families)) && forallb (familyValid key) families.

(** The payload as the mapping from family name to family. *)
Definition familyMap (families : list MetricFamily) : gmap string MetricFamily :=
  list_to_map ((λ f, (mf_name f, f)) <$> families).

Definition newGroup (families : list MetricFamily) (now : Z) : MetricGroup :=
  {| g_families := familyMap families; g_timestamp := now |}.

(** Modelled from the spec: [Push(key, families)].  On a validation failure
    the call fails and the table is left as it was; on success a new group
    stamped with the current time is installed at [key] and the table is
    marked dirty. *)
Definition Push (key : GroupingKey) (families : list MetricFamily) (now : Z)
    (t : Table) : Error + Table :=
  if validPush key families then
    inr {| groups := <[key := newGroup families now]> (groups t);
           dirty := true;
           lastPersisted := lastPersisted t |}
  else inl ErrMalformed.

(** Modelled from the spec: [Delete(key)], which removes the group at [key]
    if there is one and always succeeds.  Only a removal is a mutation. *)
Definition Delete (key : GroupingKey) (t : Table) : Table :=
  match groups t !! key with
  | Some _ =>
      {| groups := delete key (groups t);
         dirty := true;
         lastPersisted := lastPersisted t |}
  | None => t
  end.

(** Modelled from the spec: the read-only snapshot of all groups. *)
Definition GetAllGroups (t : Table) : gmap GroupingKey MetricGroup := groups t.

(** *** Merge/Exposition Engine *)

(** The key's own labels are added to a clone of the sample. *)
Definition injectKey (key : GroupingKey) (s : Sample) : Sample :=
  {| s_labels := key ++ s_labels s; s_values := s_values s |}.

Definition labelled (key : GroupingKey) (f : MetricFamily) : MetricFamily :=
  {| mf_name := mf_name f; mf_help := mf_help f; mf_type := mf_type f;
     mf_samples := injectKey key <$> mf_samples f |}.

Definition sameDeclaration (f g : MetricFamily) : bool :=
  bool_decide (mf_type f = mf_type g) && bool_decide (mf_help f = mf_help g).

(** One bucket per family name, kept in lexicographic order of the names.
    The first family seen under a name fixes type and help; the samples of
    a later one are appended to its bucket. *)
Fixpoint addFamily (f : MetricFamily) (acc : list MetricFamily) : list MetricFamily :=
  match acc with
  | [] => [f]
  | g :: acc' =>
      if bool_decide (mf_name f = mf_name g) then
        {| mf_name := mf_name g; mf_help := mf_help g; mf_type := mf_type g;
           mf_samples := mf_samples g ++ mf_samples f |} :: acc'
      else if bool_decide (String.le (mf_name f) (mf_name g)) then f :: g :: acc'
      else g :: addFamily f acc'
  end.

(** The warning recorded when a later family disagrees with the bucket. *)
Definition conflictOf (f : MetricFamily) (acc : list MetricFamily) : list string :=
  match find (λ g, bool_decide (mf_name g = mf_name f)) acc with
  | Some g => if sameDeclaration f g then [] else [mf_name f]
  | None => []
  end.

Definition mergeStep (acc : list MetricFamily * list string) (f : MetricFamily)
    : list MetricFamily * list string :=
  (addFamily f acc.1, acc.2 ++ conflictOf f acc.1).

Definition groupFamilies (kg : GroupingKey * MetricGroup) : list MetricFamily :=
  labelled kg.1 <$> (map_to_list (g_families kg.2)).*2.

(** Modelled from the spec: the Merge Engine, from a snapshot of all groups
    to the ordered families of a scrape and the recorded conflicts. *)
Definition merge (snapshot : gmap GroupingKey MetricGroup)
    : list MetricFamily * list string :=
  foldl mergeStep ([], []) (map_to_list snapshot ≫= groupFamilies).

(** *** Persistence Manager and the store as the owner sees it *)

Inductive DiskFile :=
| Missing
| Corrupt
| Snapshot (g : gmap GroupingKey MetricGroup).

Inductive WriteKind := Debounced | FinalFlush.

(** One write of the snapshot file: when, why, whether it succeeded and the
    state it carried. *)
Record Write := {
  w_time : Z;
  w_kind : WriteKind;
  w_ok : bool;
  w_groups : gmap GroupingKey MetricGroup;
}.

Record DiskMetricStore := {
  table : Table;
  file : string;               (* persistence file; empty: memory only *)
  interval : Z;                (* minimum interval between writes *)
  scheduled : option Z;        (* the instant the pending write is due *)
  stopped : bool;              (* Shutdown has been accepted *)
  disk : DiskFile;             (* the snapshot file *)
  writes : list Write;         (* every write so far, oldest first *)
}.

Definition persistenceEnabled (s : DiskMetricStore) : bool :=
  negb (bool_decide (file s = "")).

(** Modelled from the spec: the best-effort load at startup.  A missing file
    and a file that fails to parse both start the table empty. *)
Definition load (now : Z) (d : DiskFile) : Table :=
  match d with
  | Snapshot g => {| groups := g; dirty := false; lastPersisted := now |}
  | Missing | Corrupt => emptyTable now
  end.

(** Modelled from the spec: [storage.NewDiskMetricStore(file, interval)],
    given what is on disk and the time of the call. *)
Definition NewDiskMetricStore (persistenceFile : string) (persistenceDuration : Z)
    (onDisk : DiskFile) (now : Z) : DiskMetricStore :=
  {| table := if bool_decide (persistenceFile = "") then emptyTable now
              else load now onDisk;
     file := persistenceFile;
     interval := persistenceDuration;
     scheduled := None;
     stopped := false;
     disk := onDisk;
     writes := [] |}.

Definition withTable (t : Table) (s : DiskMetricStore) : DiskMetricStore :=
  {| table := t; file := file s; interval := interval s;
     scheduled := scheduled s; stopped := stopped s; disk := disk s;
     writes := writes s |}.

(** Modelled from the spec: "on every dirty mark, schedule a write".  A
    write that is already pending absorbs the new mark. *)
Definition markDirty (now : Z) (s : DiskMetricStore) : DiskMetricStore :=
  if persistenceEnabled s && dirty (table s) then
    match scheduled s with
    | Some _ => s
    | None =>
        {| table := table s; file := file s; interval := interval s;
           scheduled := Some (now + interval s)%Z; stopped := stopped s;
           disk := disk s; writes := writes s |}
    end
  else s.

(** Modelled from the spec: one write of the current state.  A success
    cleans the table; a failure leaves memory as it is and, for a debounced
    write, leaves the retry to the next cycle. *)
Definition persist (kind : WriteKind) (now : Z) (ok : bool)
    (s : DiskMetricStore) : DiskMetricStore :=
  let w := {| w_time := now; w_kind := kind; w_ok := ok;
              w_groups := groups (table s) |} in
  if ok then
    {| table := {| groups := groups (table s); dirty := false;
                   lastPersisted := now |};
       file := file s; interval := interval s; scheduled := None;
       stopped := stopped s; disk := Snapshot (groups (table s));
       writes := writes s ++ [w] |}
  else
    {| table := table s; file := file s; interval := interval s;
       scheduled := match kind with
                    | Debounced => Some (now + interval s)%Z
                    | FinalFlush => None
                    end;
       stopped := stopped s; disk := disk s; writes := writes s ++ [w] |}.

Definition stop (s : DiskMetricStore) : DiskMetricStore :=
  {| table := table s; file := file s; interval := interval s;
     scheduled := None; stopped := true; disk := disk s;
     writes := writes s |}.

(** The messages the owner processes.  [ReqPersist] is the debounce timer
    asking for its write. *)
Inductive Request :=
| ReqPush (key : GroupingKey) (families : list MetricFamily)
| ReqDelete (key : GroupingKey)
| ReqReadSnapshot
| ReqShutdown
| ReqPersist.

Inductive Response :=
| RespDone
| RespFailed (e : Error)
| RespSnapshot (g : gmap GroupingKey MetricGroup).

(** Modelled from the spec: what the owner does with one message at the
    instant [now]; [diskOk] tells whether a write of the file, if this
    message causes one, succeeds. *)
Definition process (now : Z) (diskOk : bool) (r : Request)
    (s : DiskMetricStore) : DiskMetricStore * Response :=
  if stopped s then (s, RespFailed ErrUnavailable) else
  match r with
  | ReqPush key families =>
      match Push key families now (table s) with
      | inr t => (markDirty now (withTable t s), RespDone)
      | inl e => (s, RespFailed e)
      end
  | ReqDelete key => (markDirty now (withTable (Delete key (table s)) s), RespDone)
  | ReqReadSnapshot => (s, RespSnapshot (GetAllGroups (table s)))
  | ReqPersist =>
      match scheduled s with
      | Some due =>
          if (due <=? now)%Z then (persist Debounced now diskOk s, RespDone)
          else (s, RespDone)
      | None => (s, RespDone)
      end
  | ReqShutdown =>
      if persistenceEnabled s then
        (stop (persist FinalFlush now diskOk s),
         if diskOk then RespDone else RespFailed ErrPersist)
      else (stop s, RespDone)
  end.

(** The store's methods, as [main.go] and the handlers call them. *)
Definition Shutdown (now : Z) (diskOk : bool) (s : DiskMetricStore)
    : DiskMetricStore * option Error :=
  match process now diskOk ReqShutdown s with
  | (s', RespFailed e) => (s', Some e)
  | (s', _) => (s', None)
  end.

Definition GetMetricFamilies (s : DiskMetricStore) : list MetricFamily :=
  match process 0 true ReqReadSnapshot s with
  | (_, RespSnapshot g) => (merge g).1
  | _ => []
  end.

(** A run of the owner: the messages in the order it processes them, each
    with the instant of processing and the fate of a write it may cause. *)
Fixpoint runStore (ops : list (Z * bool * Request)) (s : DiskMetricStore)
    : DiskMetricStore :=
  match ops with
  | [] => s
  | (now, ok, r) :: ops' => runStore ops' (process now ok r s).1
  end.

(** The instants of a run do not go back in time. *)
Fixpoint chronological (t0 : Z) (ops : list (Z * bool * Request)) : Prop :=
  match ops with
  | [] => True
  | (now, _, _) :: ops' => (t0 ≤ now)%Z ∧ chronological now ops'
  end.

(** No two successive writes are less than [d] apart. *)
Definition NeverMoreOften (d : Z) (ws : list Write) : Prop :=
  ∀ l1 w1 w2 l2, ws = l1 ++ w1 :: w2 :: l2 → (w_time w1 + d ≤ w_time w2)%Z.

(** No debounced write comes less than [d] after the write before it. *)
Definition DebouncedSpaced (d : Z) (ws : list Write) : Prop :=
  ∀ l1 w1 w2 l2, ws = l1 ++ w1 :: w2 :: l2 →
    w_kind w2 = Debounced → (w_time w1 + d ≤ w_time w2)%Z.

(** A final flush, if there is one, is the last write. *)
Definition FlushLast (ws : list Write) : Prop :=
  ∀ l1 w l2, ws = l1 ++ w :: l2 → w_kind w = FinalFlush → l2 = [].

Definition isShutdown (r : Request) : bool :=
  match r with
  | ReqShutdown => true
  | _ => false
  end.

End WithValue.
Global Arguments Sample : clear implicits.
Global Arguments MetricFamily : clear implicits.
Global Arguments MetricGroup : clear implicits.
Global Arguments Table : clear implicits.
Global Arguments DiskFile : clear implicits.
Global Arguments Write : clear implicits.
Global Arguments DiskMetricStore : clear implicits.
Global Arguments Request : clear implicits.
Global Arguments Response : clear implicits.
End Storage.

(** * The Request Serializer

    Modelled from the spec: "a single owner processes one operation at a
    time from an ordered queue of requests, each carrying a response
    channel".  Callers and owner are interleaved by the labels of an
    execution: a caller submits, the owner takes the head of the queue.
    Once Shutdown has been accepted the owner drains nothing further and a
    later submission fails at once. *)

Module Serializer.
Import Storage.
Section WithValue.
Context {Value : Type}.

(** What an outside observer sees: calls and their returns. *)
Inductive Event :=
| Invoke (id : nat) (r : Request Value)
| Return (id : nat) (resp : Response Value).

(** One operation at the instant it took effect. *)
Record Applied := {
  a_id : nat;
  a_now : Z;
  a_diskOk : bool;
  a_req : Request Value;
  a_resp : Response Value;
}.

Record State := {
  store : DiskMetricStore Value;
  queue : list (nat * Request Value);
  nextId : nat;
  history : list Event;
  applied : list Applied;
}.

Inductive Label :=
| Submit (r : Request Value)
| Owner (now : Z) (diskOk : bool).

Definition init (st : DiskMetricStore Value) : State :=
  {| store := st; queue := []; nextId := 0; history := []; applied := [] |}.

Definition step (l : Label) (s : State) : option State :=
  match l with
  | Submit r =>
      let id := nextId s in
      if stopped (store s) then
        let resp := (process 0 true r (store s)).2 in
        Some {| store := store s; queue := queue s; nextId := S id;
                history := history s ++ [Invoke id r; Return id resp];
                applied := applied s ++
                  [{| a_id := id; a_now := 0; a_diskOk := true;
                      a_req := r; a_resp := resp |}] |}
      else
        Some {| store := store s; queue := queue s ++ [(id, r)];
                nextId := S id;
                history := history s ++ [Invoke id r];
                applied := applied s |}
  | Owner now diskOk =>
      if stopped (store s) then None else
      match queue s with
      | [] => None
      | (id, r) :: q =>
          let res := process now diskOk r (store s) in
          Some {| store := res.1; queue := q; nextId := nextId s;
                  history := history s ++ [Return id res.2];
                  applied := applied s ++
                    [{| a_id := id; a_now := now; a_diskOk := diskOk;
                        a_req := r; a_resp := res.2 |}] |}
      end
  end.

Fixpoint run (ls : list Label) (s : State) : option State :=
  match ls with
  | [] => Some s
  | l :: ls' => step l s ≫= run ls'
  end.

(** [lin] is a legal sequential execution of the store from [st] to [st']:
    every operation returns what [process] returns in its turn. *)
Fixpoint legal (st : DiskMetricStore Value) (lin : list Applied)
    (st' : DiskMetricStore Value) : Prop :=
  match lin with
  | [] => st' = st
  | a :: lin' =>
      let res := process (a_now a) (a_diskOk a) (a_req a) st in
      a_resp a = res.2 ∧ legal res.1 lin' st'
  end.

(** The key a call pushes to, if it is a push. *)
Definition pushKey (e : Event) : option GroupingKey :=
  match e with
  | Invoke _ (ReqPush key _) => Some key
  | _ => None
  end.

Definition isDelete (e : Event) : Prop := ∃ id key, e = Invoke id (ReqDelete key).

(** The calls of the history push to pairwise distinct keys and none of
    them deletes. *)
Definition Quiet (h : list Event) : Prop :=
  NoDup (omap pushKey h) ∧ ∀ e, e ∈ h → ¬ isDelete e.

End WithValue.
Global Arguments Event : clear implicits.
Global Arguments Applied : clear implicits.
Global Arguments State : clear implicits.
Global Arguments Label : clear implicits.
End Serializer.

(** * [main.go] *)

Module Main.
Import Storage.

(** ** Flags *)

Inductive FlagValue :=
| StringValue (s : string)
| DurationValue (d : Z).

Record Flag := {
  f_name : string;
  f_default : FlagValue;
  f_usage : string;
}.

Definition addr : Flag :=
  {| f_name := "addr";
     f_default := StringValue ":8080";
     f_usage := "Address to listen on." |}.

Definition persistenceFile : Flag :=
  {| f_name := "persistence.file";
     f_default := StringValue "";
     f_usage := "File to persist metrics. If empty, metrics are only kept in memory." |}.

Definition persistenceDuration : Flag :=
  {| f_name := "persistence.duration";
     f_default := DurationValue (5 * Minute);
     f_usage := "Do not write the persistence file more often than that." |}.

(** The flags the program defines, in the order of their definition. *)
Definition CommandLine : list Flag := [addr; persistenceFile; persistenceDuration].

Definition sameKind (a b : FlagValue) : bool :=
  match a, b with
  | StringValue _, StringValue _ => true
  | DurationValue _, DurationValue _ => true
  | _, _ => false
  end.

Definition lookupFlag (name : string) : option Flag :=
  find (λ f, bool_decide (f_name f = name)) CommandLine.

(** Setting a flag fails when no flag of that name is defined or the value
    is not of the flag's kind. *)
Definition setFlag (name : string) (v : FlagValue)
    (actual : gmap string FlagValue) : option (gmap string FlagValue) :=
  match lookupFlag name with
  | Some f => if sameKind (f_default f) v then Some (<[name := v]> actual) else None
  | None => None
  end.

(** [flag.Parse] over the arguments, already split into names and values. *)
Fixpoint Parse (args : list (string * FlagValue))
    (actual : gmap string FlagValue) : option (gmap string FlagValue) :=
  match args with
  | [] => Some actual
  | (name, v) :: args' => setFlag name v actual ≫= Parse args'
  end.

Definition flagValue (f : Flag) (actual : gmap string FlagValue) : FlagValue :=
  default (f_default f) (actual !! f_name f).

Definition stringOf (f : Flag) (actual : gmap string FlagValue) : string :=
  match flagValue f actual with
  | StringValue s => s
  | DurationValue _ => ""
  end.

Definition durationOf (f : Flag) (actual : gmap string FlagValue) : Z :=
  match flagValue f actual with
  | DurationValue d => d
  | StringValue _ => 0
  end.

(** ** The pattern mux

    [pat]'s matcher, on the characters of pattern and path: [:name]
    captures the run of path characters up to the next [/] (or up to the
    character that follows the name in the pattern); every other character
    of the pattern stands for itself. *)

Definition between (lo hi : ascii) (c : ascii) : bool :=
  (nat_of_ascii lo <=? nat_of_ascii c)%nat && (nat_of_ascii c <=? nat_of_ascii hi)%nat.

Definition isAlpha (c : ascii) : bool :=
  between "a" "z" c || between "A" "Z" c || bool_decide (c = "_"%char).

Definition isDigit (c : ascii) : bool := between "0" "9" c.

Definition isAlnum (c : ascii) : bool := isAlpha c || isDigit c.

Definition matchPart (b : ascii) (c : ascii) : bool :=
  negb (bool_decide (c = b)) && negb (bool_decide (c = "/"%char)).

(** The longest prefix of [s] whose characters satisfy [f], and the rest. *)
Fixpoint span (f : ascii → bool) (s : string) : string * string :=
  match s with
  | "" => ("", "")
  | String c s' =>
      if f c then let r := span f s' in (String c r.1, r.2) else ("", s)
  end.

Definition nextByte (s : string) : ascii :=
  match s with
  | String c _ => c
  | "" => zero
  end.

Definition endsWithSlash (s : string) : bool :=
  match String.rev s with
  | String c _ => bool_decide (c = "/"%char)
  | "" => false
  end.

(** The loop of the matcher; every round takes a character off the
    pattern, so the length of the pattern bounds the rounds. *)
Fixpoint tryLoop (fuel : nat) (whole pat path : string)
    (p : list (string * string)) : option (list (string * string)) :=
  match path with
  | "" => if bool_decide (pat = "") then Some p else None
  | String c path' =>
      match pat with
      | "" =>
          if negb (bool_decide (whole = "/")) && endsWithSlash whole
          then Some p else None
      | String j pat' =>
          match fuel with
          | O => None
          | S fuel' =>
              if bool_decide (j = ":"%char) then
                let n := span isAlnum pat' in
                let v := span (matchPart (nextByte n.2)) path in
                tryLoop fuel' whole n.2 v.2 (p ++ [(String ":" n.1, v.1)])
              else if bool_decide (c = j) then tryLoop fuel' whole pat' path' p
              else None
          end
      end
  end.

Definition try (pat path : string) : option (list (string * string)) :=
  tryLoop (String.length pat) pat pat path [].

(** The handlers [main] mounts. *)
Inductive Handler := MetricsHandler | PushHandler | DeleteHandler.

Record Route := {
  r_method : string;
  r_pattern : string;
  r_handler : Handler;
}.

(** [pat]'s mux keeps, per method, the routes in the order of their
    registration; here they are one list, each route with its method. *)
Definition Add (meth pat : string) (h : Handler) (p : list Route) : list Route :=
  p ++ [{| r_method := meth; r_pattern := pat; r_handler := h |}].

(** [Get] registers the pattern for HEAD requests as well. *)
Definition Get (pat : string) (h : Handler) (p : list Route) : list Route :=
  Add "GET" pat h (Add "HEAD" pat h p).
Definition Put (pat : string) (h : Handler) (p : list Route) : list Route :=
  Add "PUT" pat h p.
Definition Post (pat : string) (h : Handler) (p : list Route) : list Route :=
  Add "POST" pat h p.
Definition Del (pat : string) (h : Handler) (p : list Route) : list Route :=
  Add "DELETE" pat h p.

(** The routes of [main], registered on [pat.New()] in the order of the
    source. *)
Definition mux : list Route :=
  Del "/metrics/job/:job" DeleteHandler
    (Post "/metrics/job/:job" PushHandler
       (Put "/metrics/job/:job" PushHandler
          (Del "/metrics/job/:job/instance/:instance" DeleteHandler
             (Post "/metrics/job/:job/instance/:instance" PushHandler
                (Put "/metrics/job/:job/instance/:instance" PushHandler
                   (Get "/metrics" MetricsHandler [])))))).

(** The mux serves a request with the first route registered for its
    method whose pattern matches the path. *)
Fixpoint dispatch (routes : list Route) (method path : string)
    : option (Handler * list (string * string)) :=
  match routes with
  | [] => None
  | r :: routes' =>
      if bool_decide (r_method r = method) then
        match try (r_pattern r) path with
        | Some params => Some (r_handler r, params)
        | None => dispatch routes' method path
        end
      else dispatch routes' method path
  end.

(** A path segment that can stand for [:job] or [:instance]: not empty,
    and free of [/] and of the zero byte. *)
Definition plain (c : ascii) : bool :=
  negb (bool_decide (c = "/"%char)) && negb (bool_decide (c = zero)).

Fixpoint allChars (f : ascii → bool) (s : string) : bool :=
  match s with
  | "" => true
  | String c s' => f c && allChars f s'
  end.

Definition isSegment (s : string) : bool :=
  negb (bool_decide (s = "")) && allChars plain s.

(** A segment that the cleaning of the request path leaves alone: neither
    [.] nor [..]. *)
Definition isCleanSegment (s : string) : bool :=
  isSegment s && negb (bool_decide (s = ".")) && negb (bool_decide (s = "..")).

(** Whether a route registered for another method matches the path: the
    mux then answers 405 instead of 404. *)
Definition otherMethodMatches (routes : list Route) (method path : string) : bool :=
  existsb (λ r, negb (bool_decide (r_method r = method))
                && bool_decide (is_Some (try (r_pattern r) path))) routes.

(** ** Internal metrics *)

(** The fields of [runtime.MemStats] the program reads. *)
Record MemStats := {
  Alloc : Z;
  TotalAlloc : Z;
  HeapAlloc : Z;
  NextGC : Z;
  PauseTotalNs : Z;
  NumGC : Z;
}.

(** What the Go runtime reports at one instant. *)
Record Runtime := {
  ReadMemStats : MemStats;
  NumGoroutine : Z;
}.

Inductive MetricKind := GaugeMetric | CounterMetric | OtherMetric.

Section WithValue.

(** [float64] converts an integer of the runtime to a sample value and
    [formatValue] prints one; floating point itself is left abstract. *)
Context {Value : Type} (float64 : Z → Value) (formatValue : Value → string).

(** A metric object of the client library, as far as the program uses it:
    its kind and the value last set for the empty label set. *)
Record Metric := {
  m_kind : MetricKind;
  m_value : option Value;
}.

Definition NewGauge : Metric := {| m_kind := GaugeMetric; m_value := None |}.
Definition NewCounter : Metric := {| m_kind := CounterMetric; m_value := None |}.

(** An entry of [internalMetrics].  [eval] reads the global [memStats] and
    the runtime; [metric] points at the metric object in the heap. *)
Record InternalMetric := {
  name : string;
  help : string;
  eval : MemStats → Runtime → Value;
  metric : nat;
}.

Definition internalMetrics : list InternalMetric :=
  [ {| name := "instance_goroutine_count";
       help := "The number of goroutines that currently exist.";
       eval := λ _ rt, float64 (NumGoroutine rt);
       metric := 0 |};
    {| name := "instance_allocated_bytes";
       help := "Bytes allocated and still in use.";
       eval := λ memStats _, float64 (Alloc memStats);
       metric := 1 |};
    {| name := "instance_total_allocated_bytes";
       help := "Bytes allocated (even if freed).";
       eval := λ memStats _, float64 (TotalAlloc memStats);
       metric := 2 |};
    {| name := "instance_heap_allocated_bytes";
       help := "Heap bytes allocated and still in use.";
       eval := λ memStats _, float64 (HeapAlloc memStats);
       metric := 3 |};
    {| name := "instance_gc_high_watermark_bytes";
       help := "Next run in HeapAlloc time (bytes).";
       eval := λ memStats _, float64 (NextGC memStats);
       metric := 4 |};
    {| name := "instance_gc_total_pause_ns";
       help := "Total GC paise time.";
       eval := λ memStats _, float64 (PauseTotalNs memStats);
       metric := 5 |};
    {| name := "instance_gc_count";
       help := "GC count.";
       eval := λ memStats _, float64 (NumGC memStats);
       metric := 6 |} ].

(** The metric objects the initialiser of [internalMetrics] allocates. *)
Definition newMetrics : list Metric :=
  [NewGauge; NewGauge; NewGauge; NewGauge; NewGauge; NewGauge; NewCounter].

Record Registration := {
  reg_name : string;
  reg_help : string;
  reg_metric : nat;
}.

(** The package-level variables and the default registry. *)
Record Globals := {
  memStats : MemStats;
  heap : list Metric;
  registry : list Registration;
}.

Definition zeroMemStats : MemStats :=
  {| Alloc := 0; TotalAlloc := 0; HeapAlloc := 0; NextGC := 0;
     PauseTotalNs := 0; NumGC := 0 |}.

Definition initialGlobals : Globals :=
  {| memStats := zeroMemStats; heap := newMetrics; registry := [] |}.

(** [prometheus.Register]: a name can be registered once; the program
    ignores the error of a second registration. *)
Definition Register (n h : string) (m : nat) (g : Globals) : Globals :=
  {| memStats := memStats g;
     heap := heap g;
     registry :=
       if bool_decide (n ∈ reg_name <$> registry g) then registry g
       else registry g ++ [{| reg_name := n; reg_help := h; reg_metric := m |}] |}.

Definition registerInternalMetrics (g : Globals) : Globals :=
  foldl (λ g im, Register (name im) (help im) (metric im) g) g internalMetrics.

(** [m.Set(nil, v)] on the metric object at [ref]. *)
Definition SetMetric (ref : nat) (v : Value) (g : Globals) : Globals :=
  {| memStats := memStats g;
     heap := alter (λ m, {| m_kind := m_kind m; m_value := Some v |}) ref (heap g);
     registry := registry g |}.

(** One round of the loop of [updateInternalMetrics]: the type switch on
    the metric object.  The second component collects what is logged. *)
Definition updateOne (rt : Runtime) (acc : Globals * list string)
    (im : InternalMetric) : Globals * list string :=
  let g := acc.1 in
  match m_kind <$> heap g !! metric im with
  | Some GaugeMetric => (SetMetric (metric im) (eval im (memStats g) rt) g, acc.2)
  | Some CounterMetric => (SetMetric (metric im) (eval im (memStats g) rt) g, acc.2)
  | _ => (g, acc.2 ++ ["Unexpected metric type: " +:+ name im])
  end.

Definition updateInternalMetrics (rt : Runtime) (g : Globals) : Globals * list string :=
  let g1 := {| memStats := ReadMemStats rt; heap := heap g; registry := registry g |} in
  foldl (updateOne rt) (g1, []) internalMetrics.

(** ** Exposition *)

Definition newline : string := String (ascii_of_nat 10) EmptyString.
Definition dquote : string := String (ascii_of_nat 34) EmptyString.

Definition typeName (t : MetricType) : string :=
  match t with
  | Counter => "counter"
  | Gauge => "gauge"
  | Histogram => "histogram"
  | Summary => "summary"
  | Untyped => "untyped"
  end.

Fixpoint join (sep : string) (l : list string) : string :=
  match l with
  | [] => EmptyString
  | [x] => x
  | x :: l' => x +:+ sep +:+ join sep l'
  end.

Definition renderLabel (p : LabelPair) : string := p.1 +:+ "=" +:+ dquote +:+ p.2 +:+ dquote.

Definition renderSample (n : string) (s : Sample Value) : string :=
  n +:+ "{" +:+ join "," (renderLabel <$> s_labels s) +:+ "} "
    +:+ join " " (formatValue <$> s_values s) +:+ newline.

Definition concat (l : list string) : string := foldr String.append EmptyString l.

(** Modelled from the spec: the exposition format, "for each family, one
    HELP comment line, one TYPE comment line, then one line per sample with
    the metric name, a brace-enclosed label set and the numeric value". *)
Definition renderFamily (f : MetricFamily Value) : string :=
  "# HELP " +:+ mf_name f +:+ " " +:+ mf_help f +:+ newline
  +:+ "# TYPE " +:+ mf_name f +:+ " " +:+ typeName (mf_type f) +:+ newline
  +:+ concat (renderSample (mf_name f) <$> mf_samples f).

Definition exposition (fs : list (MetricFamily Value)) : string :=
  concat (renderFamily <$> fs).

Definition metricType (k : MetricKind) : MetricType :=
  match k with
  | GaugeMetric => Gauge
  | CounterMetric => Counter
  | OtherMetric => Untyped
  end.

(** The family a registered metric contributes to a scrape. *)
Definition familyOf (g : Globals) (r : Registration) : list (MetricFamily Value) :=
  match heap g !! reg_metric r with
  | Some m =>
      [{| mf_name := reg_name r; mf_help := reg_help r;
          mf_type := metricType (m_kind m);
          mf_samples := match m_value m with
                        | Some v => [{| s_labels := []; s_values := [v] |}]
                        | None => []
                        end |}]
  | None => []
  end.

(** A family with a single sample that carries no label. *)
Definition single (n h : string) (t : MetricType) (v : Value) : MetricFamily Value :=
  {| mf_name := n; mf_help := h; mf_type := t;
     mf_samples := [{| s_labels := []; s_values := [v] |}] |}.

(** What the default registry hands to the handler: its own metrics and
    the families of the injection hook, here [ms.GetMetricFamilies]. *)
Definition gather (g : Globals) (ms : DiskMetricStore Value) : list (MetricFamily Value) :=
  (registry g ≫= familyOf g) ++ GetMetricFamilies ms.

Definition DefaultHandler (g : Globals) (ms : DiskMetricStore Value) : string :=
  exposition (gather g ms).

(** ** Requests *)

Record HttpRequest := {
  method : string;
  path : string;
  body : option (list (MetricFamily Value));   (* [None]: unparseable *)
}.

Inductive HttpResponse :=
| StatusOK
| StatusError (e : Error)
| StatusNotFound
| StatusMethodNotAllowed
| StatusMovedPermanently (location : string)
| Debug
| Exposition (text : string).

Definition stripColon (s : string) : string :=
  match s with
  | String ":" n => n
  | _ => s
  end.

(** The labels of the route: [:job] gives [job], [:instance] gives
    [instance]. *)
Definition labelsOf (params : list (string * string)) : list LabelPair :=
  (λ p, (stripColon p.1, p.2)) <$> params.

Definition answer (r : Response Value) : HttpResponse :=
  match r with
  | RespFailed e => StatusError e
  | _ => StatusOK
  end.

(** Modelled from the spec: [handler.Push(ms)], "Push with key {job,
    instance}" or "{job}" as the route has it; a payload that does not
    parse is a malformed push. *)
Definition handlerPush (now : Z) (params : list (string * string))
    (req : HttpRequest) (ms : DiskMetricStore Value)
    : DiskMetricStore Value * HttpResponse :=
  match newGroupingKey (labelsOf params), body req with
  | inl e, _ => (ms, StatusError e)
  | inr _, None => (ms, StatusError ErrMalformed)
  | inr key, Some families =>
      let res := process now true (ReqPush key families) ms in
      (res.1, answer res.2)
  end.

(** Modelled from the spec: [handler.Delete(ms)], "Delete with key". *)
Definition handlerDelete (now : Z) (params : list (string * string))
    (ms : DiskMetricStore Value) : DiskMetricStore Value * HttpResponse :=
  match newGroupingKey (labelsOf params) with
  | inl e => (ms, StatusError e)
  | inr key =>
      let res := process now true (ReqDelete key) ms in
      (res.1, answer res.2)
  end.

(** The state a request handler works on. *)
Record World := {
  globals : Globals;
  ms : DiskMetricStore Value;
}.

(** The handler of [GET /metrics]: [updateInternalMetrics()], then
    [prometheus.DefaultHandler(w, r)]. *)
Definition metricsHandler (rt : Runtime) (w : World)
    : World * HttpResponse * list string :=
  let u := updateInternalMetrics rt (globals w) in
  ({| globals := u.1; ms := ms w |}, Exposition (DefaultHandler u.1 (ms w)), u.2).

(** [mux.ServeHTTP]: the first route of the method that matches serves the
    request; without one the answer is 405 when a route of another method
    matches the path and 404 otherwise.  The server sends no body in answer
    to a HEAD request. *)
Definition servePat (now : Z) (rt : Runtime) (req : HttpRequest) (w : World)
    : World * HttpResponse * list string :=
  match dispatch mux (method req) (path req) with
  | Some (MetricsHandler, _) =>
      let r := metricsHandler rt w in
      (r.1.1, if bool_decide (method req = "HEAD") then StatusOK else r.1.2, r.2)
  | Some (PushHandler, params) =>
      let r := handlerPush now params req (ms w) in
      ({| globals := globals w; ms := r.1 |}, r.2, [])
  | Some (DeleteHandler, params) =>
      let r := handlerDelete now params (ms w) in
      ({| globals := globals w; ms := r.1 |}, r.2, [])
  | None =>
      (w, if otherMethodMatches mux (method req) (path req)
          then StatusMethodNotAllowed else StatusNotFound, [])
  end.

(** *** The default mux of [net/http] *)

(** The parts of a path between its slashes. *)
Fixpoint splitSlash (s : string) : list string :=
  match s with
  | "" => [""]
  | String c s' =>
      if bool_decide (c = "/"%char) then "" :: splitSlash s'
      else match splitSlash s' with
           | x :: l => String c x :: l
           | [] => [String c ""]
           end
  end.

(** One element of a rooted path under [path.Clean]: an empty element
    and [.] are dropped, [..] takes the element before it away (at the root
    there is none), any other element stays. *)
Definition cleanStep (out : list string) (elem : string) : list string :=
  if bool_decide (elem = "") || bool_decide (elem = ".") then out
  else if bool_decide (elem = "..") then removelast out
  else out ++ [elem].

(** [path.Clean] on a rooted path. *)
Definition Clean (p : string) : string :=
  "/" +:+ join "/" (foldl cleanStep [] (splitSlash p)).

Fixpoint hasTrailingSlash (s : string) : bool :=
  match s with
  | "" => false
  | String c "" => bool_decide (c = "/"%char)
  | String _ s' => hasTrailingSlash s'
  end.

(** [cleanPath] of [net/http]: the canonical form of a request path. *)
Definition cleanPath (p : string) : string :=
  if bool_decide (p = "") then "/" else
  let p := if bool_decide (nextByte p = "/"%char) then p else "/" +:+ p in
  let np := Clean p in
  if hasTrailingSlash p && negb (bool_decide (np = "/")) then np +:+ "/" else np.

(** What is mounted on [http.DefaultServeMux]. *)
Inductive Mounted :=
| Pprof
| RedirectTo (location : string)
| PatMux.

(** The import of [net/http/pprof] mounts the profiling endpoints;
    [http.Handle("/", mux)] mounts the routes.  A pattern that ends in a
    slash also registers the redirect from the path without it. *)
Definition DefaultServeMux : list (string * Mounted) :=
  [ ("/debug/pprof/", Pprof);
    ("/debug/pprof", RedirectTo "/debug/pprof/");
    ("/debug/pprof/cmdline", Pprof);
    ("/debug/pprof/profile", Pprof);
    ("/debug/pprof/symbol", Pprof);
    ("/", PatMux) ].

(** A pattern that ends in a slash matches the paths it is a prefix of,
    any other pattern the path equal to it. *)
Definition pathMatch (pattern path : string) : bool :=
  if hasTrailingSlash pattern then String.prefix pattern path
  else String.eqb pattern path.

(** The entry with the longest pattern that matches. *)
Definition mounted (path : string) : option (string * Mounted) :=
  foldl (λ best e,
           if pathMatch e.1 path
              && match best with
                 | Some b => (String.length b.1 <? String.length e.1)%nat
                 | None => true
                 end
           then Some e else best)
        None DefaultServeMux.

(** [http.DefaultServeMux], which [Serve] hands every request to: a path
    that is not in canonical form is answered with a redirect to its clean
    form (but for CONNECT), any other goes to what is mounted for it. *)
Definition ServeHTTP (now : Z) (rt : Runtime) (req : HttpRequest) (w : World)
    : World * HttpResponse * list string :=
  if negb (bool_decide (method req = "CONNECT"))
     && negb (String.eqb (cleanPath (path req)) (path req))
  then (w, StatusMovedPermanently (cleanPath (path req)), [])
  else
    match mounted (path req) with
    | Some (_, Pprof) => (w, Debug, [])
    | Some (_, RedirectTo location) => (w, StatusMovedPermanently location, [])
    | Some (_, PatMux) => servePat now rt req w
    | None => (w, StatusNotFound, [])
    end.

(** ** The life cycle of the process

    [main] and [interruptHandler] run as two goroutines next to the
    goroutines of the accepted connections and the timer of the store.  A
    label says which of them takes its next step and what the environment
    hands to it.  A signal can arrive at any time: before
    [interruptHandler] has called [signal.Notify] it ends the process, while
    the handler waits in its receive it is received, and otherwise it is
    dropped, the channel being unbuffered. *)

Inductive MainPc :=
| AtListen          (* l, err := net.Listen("tcp", *addr) *)
| AtGo              (* go interruptHandler(l) *)
| AtServe           (* (&http.Server{Addr: *addr}).Serve(l) *)
| AtSleep           (* time.Sleep(time.Second) *)
| AtShutdown        (* ms.Shutdown() *)
| AtReturn          (* the end of main *)
| Exited (code : Z)
| Killed.           (* ended by a signal nobody had asked to be notified of *)

Inductive HandlerPc :=
| NotStarted
| AtNotify          (* signal.Notify(notifier, os.Interrupt, syscall.SIGTERM) *)
| AtReceive         (* <-notifier *)
| AtClose           (* l.Close() *)
| Returned.

Inductive Event :=
| EvLog (msg : string)
| EvListen (address : string) (ok : bool)
| EvAccept (r : HttpRequest)
| EvRespond (r : HttpRequest) (resp : HttpResponse)
| EvSignal
| EvKilled
| EvClose
| EvServeReturn
| EvSleep (d : Z)
| EvShutdown (err : option Error)
| EvExit (code : Z).

(** [LSignal parked]: SIGINT or SIGTERM arrives; [parked] tells whether
    [interruptHandler] is blocked in its receive at that instant, the only
    way the send on the unbuffered [notifier] goes through.
    [LServeReturn err]: [Serve] returns the error [err] of the failed
    Accept. *)
Inductive Label :=
| LListen (err : option string)
| LGo
| LNotify
| LSignal (parked : bool)
| LClose
| LAccept (r : HttpRequest)
| LHandle (i : nat) (now : Z) (rt : Runtime)
| LTimer (now : Z) (diskOk : bool)
| LServeReturn (err : string)
| LSleep
| LShutdown (now : Z) (diskOk : bool)
| LReturn.

Record Process := {
  flags : gmap string FlagValue;
  mainPc : MainPc;
  handlerPc : HandlerPc;
  listening : bool;                    (* the listener [l] is open *)
  connections : list HttpRequest;      (* accepted and not yet answered *)
  world : World;
  trace : list Event;
}.

Definition errorText (e : Error) : string :=
  match e with
  | ErrMalformed => "malformed push"
  | ErrReserved => "reserved label name"
  | ErrUnavailable => "metric store unavailable"
  | ErrPersist => "persistence failed"
  end.

(** [main] up to the call of [net.Listen]: the flags are parsed, the store
    is created from the two persistence flags, the internal metrics are
    registered and the routes are mounted. *)
Definition start (actual : gmap string FlagValue) (onDisk : DiskFile Value)
    (now : Z) : Process :=
  {| flags := actual;
     mainPc := AtListen;
     handlerPc := NotStarted;
     listening := false;
     connections := [];
     world :=
       {| globals := registerInternalMetrics initialGlobals;
          ms := NewDiskMetricStore (stringOf persistenceFile actual)
                  (durationOf persistenceDuration actual) onDisk now |};
     trace := [EvLog ("Listening on " +:+ stringOf addr actual +:+ ".")] |}.

Definition alive (p : Process) : bool :=
  match mainPc p with
  | Exited _ | Killed => false
  | _ => true
  end.

Definition mainTo (pc : MainPc) (evs : list Event) (p : Process) : Process :=
  {| flags := flags p; mainPc := pc; handlerPc := handlerPc p;
     listening := listening p; connections := connections p;
     world := world p; trace := trace p ++ evs |}.

Definition handlerTo (h : HandlerPc) (evs : list Event) (p : Process) : Process :=
  {| flags := flags p; mainPc := mainPc p; handlerPc := h;
     listening := listening p; connections := connections p;
     world := world p; trace := trace p ++ evs |}.

Definition withListener (open : bool) (p : Process) : Process :=
  {| flags := flags p; mainPc := mainPc p; handlerPc := handlerPc p;
     listening := open; connections := connections p;
     world := world p; trace := trace p |}.

Definition withConnections (cs : list HttpRequest) (p : Process) : Process :=
  {| flags := flags p; mainPc := mainPc p; handlerPc := handlerPc p;
     listening := listening p; connections := cs;
     world := world p; trace := trace p |}.

Definition withWorld (w : World) (evs : list Event) (p : Process) : Process :=
  {| flags := flags p; mainPc := mainPc p; handlerPc := handlerPc p;
     listening := listening p; connections := connections p;
     world := w; trace := trace p ++ evs |}.

Definition shutdownEvents (err : option Error) : list Event :=
  EvShutdown err ::
  match err with
  | Some e => [EvLog ("Problem shutting down metric storage: " +:+ errorText e)]
  | None => []
  end.

Definition signalEvents : list Event :=
  [EvSignal; EvLog "Received SIGINT/SIGTERM; exiting gracefully..."].

Definition stoppedEvents (err : string) : list Event :=
  [EvServeReturn; EvLog ("HTTP server stopped: " +:+ err)].

Definition step (l : Label) (p : Process) : option Process :=
  if negb (alive p) then None else
  match l, mainPc p, handlerPc p with
  | LListen None, AtListen, _ =>
      Some (mainTo AtGo [EvListen (stringOf addr (flags p)) true] (withListener true p))
  | LListen (Some e), AtListen, _ =>
      (* log.Fatal(err) *)
      Some (mainTo (Exited 1)
              [EvListen (stringOf addr (flags p)) false; EvLog e; EvExit 1] p)
  | LGo, AtGo, _ => Some (handlerTo AtNotify [] (mainTo AtServe [] p))
  | LNotify, _, AtNotify => Some (handlerTo AtReceive [] p)
  | LSignal _, _, (NotStarted | AtNotify) =>
      (* nobody has asked for the signal yet: it ends the process *)
      Some (mainTo Killed [EvKilled] p)
  | LSignal true, _, AtReceive => Some (handlerTo AtClose signalEvents p)
  | LSignal false, _, AtReceive => Some p
  | LSignal _, _, (AtClose | Returned) =>
      (* no receiver waits on the unbuffered channel: the signal is dropped *)
      Some p
  | LClose, _, AtClose => Some (handlerTo Returned [EvClose] (withListener false p))
  | LAccept r, AtServe, _ =>
      if listening p
      then Some (withWorld (world p) [EvAccept r] (withConnections (connections p ++ [r]) p))
      else None
  | LHandle i now rt, _, _ =>
      match connections p !! i with
      | Some r =>
          let res := ServeHTTP now rt r (world p) in
          Some (withWorld res.1.1 ((EvLog <$> res.2) ++ [EvRespond r res.1.2])
                  (withConnections (delete i (connections p)) p))
      | None => None
      end
  | LTimer now diskOk, _, _ =>
      Some (withWorld {| globals := globals (world p);
                         ms := (process now diskOk ReqPersist (ms (world p))).1 |}
              [] p)
  | LServeReturn err, AtServe, _ =>
      (* Accept fails once the listener is closed, and Serve returns *)
      if listening p then None else Some (mainTo AtSleep (stoppedEvents err) p)
  | LSleep, AtSleep, _ => Some (mainTo AtShutdown [EvSleep Second] p)
  | LShutdown now diskOk, AtShutdown, _ =>
      let res := Shutdown now diskOk (ms (world p)) in
      Some (mainTo AtReturn []
              (withWorld {| globals := globals (world p); ms := res.1 |}
                 (shutdownEvents res.2) p))
  | LReturn, AtReturn, _ => Some (mainTo (Exited 0) [EvExit 0] p)
  | _, _, _ => None
  end.

Fixpoint run (ls : list Label) (p : Process) : option Process :=
  match ls with
  | [] => Some p
  | l :: ls' => step l p ≫= run ls'
  end.

Definition isRespond (e : Event) : Prop := ∃ r resp, e = EvRespond r resp.

(** The step function as a relation, one rule per statement. *)
Inductive Step : Label → Process → Process → Prop :=
| StepListen p :
    mainPc p = AtListen →
    Step (LListen None) p
      (mainTo AtGo [EvListen (stringOf addr (flags p)) true] (withListener true p))
| StepFatal p e :
    mainPc p = AtListen →
    Step (LListen (Some e)) p
      (mainTo (Exited 1)
         [EvListen (stringOf addr (flags p)) false; EvLog e; EvExit 1] p)
| StepGo p :
    mainPc p = AtGo →
    Step LGo p (handlerTo AtNotify [] (mainTo AtServe [] p))
| StepNotify p :
    alive p = true → handlerPc p = AtNotify →
    Step LNotify p (handlerTo AtReceive [] p)
| StepKill p parked :
    alive p = true → handlerPc p = NotStarted ∨ handlerPc p = AtNotify →
    Step (LSignal parked) p (mainTo Killed [EvKilled] p)
| StepSignal p :
    alive p = true → handlerPc p = AtReceive →
    Step (LSignal true) p (handlerTo AtClose signalEvents p)
| StepDrop p parked :
    alive p = true →
    (handlerPc p = AtReceive ∧ parked = false) ∨
    handlerPc p = AtClose ∨ handlerPc p = Returned →
    Step (LSignal parked) p p
| StepClose p :
    alive p = true → handlerPc p = AtClose →
    Step LClose p (handlerTo Returned [EvClose] (withListener false p))
| StepAccept p r :
    mainPc p = AtServe → listening p = true →
    Step (LAccept r) p
      (withWorld (world p) [EvAccept r] (withConnections (connections p ++ [r]) p))
| StepHandle p i now rt r :
    alive p = true → connections p !! i = Some r →
    Step (LHandle i now rt) p
      (withWorld (ServeHTTP now rt r (world p)).1.1
         ((EvLog <$> (ServeHTTP now rt r (world p)).2)
            ++ [EvRespond r (ServeHTTP now rt r (world p)).1.2])
         (withConnections (delete i (connections p)) p))
| StepTimer p now diskOk :
    alive p = true →
    Step (LTimer now diskOk) p
      (withWorld {| globals := globals (world p);
                    ms := (process now diskOk ReqPersist (ms (world p))).1 |} [] p)
| StepServeReturn p err :
    mainPc p = AtServe → listening p = false →
    Step (LServeReturn err) p (mainTo AtSleep (stoppedEvents err) p)
| StepSleep p :
    mainPc p = AtSleep →
    Step LSleep p (mainTo AtShutdown [EvSleep Second] p)
| StepShutdown p now diskOk :
    mainPc p = AtShutdown →
    Step (LShutdown now diskOk) p
      (mainTo AtReturn []
         (withWorld {| globals := globals (world p);
                       ms := (Shutdown now diskOk (ms (world p))).1 |}
            (shutdownEvents (Shutdown now diskOk (ms (world p))).2) p))
| StepReturn p :
    mainPc p = AtReturn →
    Step LReturn p (mainTo (Exited 0) [EvExit 0] p).

(** Which positions of [main], of [interruptHandler] and of the listener
    go together. *)
Definition together (m : MainPc) (h : HandlerPc) (open : bool) : bool :=
  match m, h, open with
  | AtListen, NotStarted, false => true
  | AtGo, NotStarted, true => true
  | AtServe, (AtNotify | AtReceive | AtClose), true => true
  | AtServe, Returned, false => true
  | (AtSleep | AtShutdown | AtReturn), Returned, false => true
  | Exited c, NotStarted, false => bool_decide (c = 1%Z)
  | Exited c, Returned, false => bool_decide (c = 0%Z)
  | Killed, (NotStarted | AtNotify), _ => true
  | _, _, _ => false
  end.

(** [tr] runs through the markers [ms] in their order, with nothing but
    answers to requests before, between and after them. *)
Fixpoint after (ms : list (list Event)) (tr : list Event) : Prop :=
  match ms with
  | [] => Forall isRespond tr
  | m :: ms' => ∃ t rest, tr = t ++ m ++ rest ∧ Forall isRespond t ∧ after ms' rest
  end.

(** The signal was received, later the listener was closed, and from then
    on the trace runs through the markers. *)
Definition Closing (ms : list (list Event)) (tr : list Event) : Prop :=
  ∃ t0 t1 rest, tr = t0 ++ signalEvents ++ t1 ++ [EvClose] ++ rest ∧ after ms rest.

(** The store has been shut down; with persistence its last write is the
    final flush of the state it holds, and [err] is what Shutdown returned. *)
Definition Flushed (err : option Error) (s : DiskMetricStore Value) : Prop :=
  stopped s = true ∧
  (persistenceEnabled s = true →
     ∃ ws w, writes s = ws ++ [w] ∧ w_kind w = FinalFlush ∧
             w_groups w = groups (table s) ∧
             err = if w_ok w then None else Some ErrPersist) ∧
  (persistenceEnabled s = false → err = None).

End WithValue.
Global Arguments Metric : clear implicits.
Global Arguments Event : clear implicits.
Global Arguments Label : clear implicits.
Global Arguments Process : clear implicits.
Global Arguments HttpResponse : clear implicits.
Global Arguments InternalMetric : clear implicits.
Global Arguments Globals : clear implicits.
Global Arguments HttpRequest : clear implicits.
Global Arguments World : clear implicits.

End Main.

(** * Properties of the store *)

Module StorageFacts.
Import Storage.
Section WithValue.
Context {Value : Type}.

Implicit Types (key : GroupingKey) (t : Table Value) (s : DiskMetricStore Value).

Lemma Push_inr key families now t t' :
  Push key families now t = inr t' →
  validPush key families = true ∧
  t' = {| groups := <[key := newGroup families now]> (groups t);
          dirty := true; lastPersisted := lastPersisted t |}.
Proof.
  unfold Push. destruct (validPush key families); [|discriminate].
  intros [= <-]. done.
Qed.

Lemma process_running now ok r s s' :
  process now ok r s = (s', RespDone) → stopped s = false.
Proof.
  unfold process. destruct (stopped s); [discriminate|done].
Qed.

Lemma process_push_done now ok key families s s' :
  process now ok (ReqPush key families) s = (s', RespDone) →
  stopped s = false ∧ validPush key families = true ∧
  groups (table s') = <[key := newGroup families now]> (groups (table s)) ∧
  dirty (table s') = true ∧ stopped s' = false.
Proof.
  intros H. pose proof (process_running _ _ _ _ _ H) as Hrun.
  unfold process in H. rewrite Hrun in H.
  destruct (Push key families now (table s)) as [e|t'] eqn:HP; [discriminate|].
  apply Push_inr in HP as [Hv ->]. injection H as <-.
  split; [done|]. split; [done|].
  unfold markDirty, withTable; simpl.
  destruct (persistenceEnabled _); simpl; [|done].
  destruct (scheduled s); done.
Qed.

Lemma familyMap_lookup (families : list (MetricFamily Value)) n f :
  NoDup (mf_name <$> families) →
  familyMap families !! n = Some f ↔ f ∈ families ∧ mf_name f = n.
Proof.
  intros Hnd. unfold familyMap.
  rewrite <- elem_of_list_to_map.
  - rewrite list_elem_of_fmap. split.
    + intros (g & [= -> ->] & Hg). done.
    + intros [Hf <-]. by exists f.
  - by rewrite <- list_fmap_compose.
Qed.

Lemma validPush_NoDup key (families : list (MetricFamily Value)) :
  validPush key families = true → NoDup (mf_name <$> families).
Proof.
  unfold validPush. intros [H _]%andb_prop. by apply bool_decide_eq_true in H.
Qed.

(** *** Spacing of the writes *)

Lemma snoc_eq_cons {A} (ws : list A) w l1 x l2 :
  ws ++ [w] = l1 ++ x :: l2 →
  (l2 = [] ∧ x = w ∧ ws = l1) ∨ (∃ l2', l2 = l2' ++ [w] ∧ ws = l1 ++ x :: l2').
Proof.
  destruct l2 as [|y l2 _] using rev_ind.
  - intros H. apply (app_inj_tail ws l1 w x) in H as [-> ->]. by left.
  - intros H. right. exists l2.
    change (l1 ++ x :: l2 ++ [y]) with (l1 ++ (x :: l2) ++ [y]) in H.
    rewrite app_assoc in H. apply app_inj_tail in H as [-> ->]. done.
Qed.

Lemma DebouncedSpaced_snoc d (ws : list (Write Value)) w :
  DebouncedSpaced d ws →
  (w_kind w = Debounced → ∀ w', last ws = Some w' → (w_time w' + d ≤ w_time w)%Z) →
  DebouncedSpaced d (ws ++ [w]).
Proof.
  intros Hws Hw l1 w1 w2 l2 Heq Hk.
  change (l1 ++ w1 :: w2 :: l2) with (l1 ++ [w1] ++ w2 :: l2) in Heq.
  rewrite app_assoc in Heq.
  apply snoc_eq_cons in Heq as [(-> & -> & ->)|(l2' & -> & ->)].
  - apply Hw; [done|]. by rewrite last_snoc.
  - apply (Hws l1 w1 w2 l2'); [|done]. by rewrite <- app_assoc.
Qed.

Lemma FlushLast_snoc (ws : list (Write Value)) w :
  Forall (λ x, w_kind x = Debounced) ws → FlushLast (ws ++ [w]).
Proof.
  intros Hws l1 x l2 Heq Hk.
  apply snoc_eq_cons in Heq as [(-> & _ & _)|(l2' & -> & ->)]; [done|].
  apply Forall_app in Hws as [_ Hx]. apply Forall_cons in Hx as [Hx _].
  congruence.
Qed.

Lemma FlushLast_debounced (ws : list (Write Value)) :
  Forall (λ x, w_kind x = Debounced) ws → FlushLast ws.
Proof.
  intros Hws l1 x l2 -> Hk.
  apply Forall_app in Hws as [_ Hx]. apply Forall_cons in Hx as [Hx _].
  congruence.
Qed.

(** What holds of a store whose last message was processed at [T]. *)
Record Timely (T : Z) (s : DiskMetricStore Value) : Prop := {
  timely_past : Forall (λ w, (w_time w ≤ T)%Z) (writes s);
  timely_due : ∀ due w, scheduled s = Some due → last (writes s) = Some w →
                 (w_time w + interval s ≤ due)%Z;
  timely_spaced : DebouncedSpaced (interval s) (writes s);
  timely_last : FlushLast (writes s);
  timely_running : stopped s = false →
                   Forall (λ w, w_kind w = Debounced) (writes s);
}.

Lemma Timely_new file d onDisk now :
  Timely now (NewDiskMetricStore (Value:=Value) file d onDisk now).
Proof.
  split; simpl; try done.
  - intros l1 w1 w2 l2 H. by destruct l1.
  - intros l1 w l2 H. by destruct l1.
Qed.

Lemma Timely_later T now s : (T ≤ now)%Z → Timely T s → Timely now s.
Proof.
  intros Hle [H1 H2 H3 H4 H5]. split; try done.
  eapply Forall_impl; [exact H1|]. simpl. lia.
Qed.

Lemma Timely_markDirty now t s :
  Timely now s → Timely now (markDirty now (withTable t s)).
Proof.
  intros [H1 H2 H3 H4 H5]. unfold markDirty, withTable. simpl.
  destruct (persistenceEnabled _ && dirty t); [|by split].
  destruct (scheduled s) eqn:E; [by split|].
  split; simpl; try done.
  intros due w [= <-] Hl.
  apply last_Some in Hl as [l' Hl]. rewrite Hl in H1.
  apply Forall_app in H1 as [_ H1]. apply Forall_cons in H1 as [H1 _]. lia.
Qed.

Lemma Timely_persist now ok due s :
  stopped s = false → scheduled s = Some due → (due ≤ now)%Z →
  Timely now s → Timely now (persist Debounced now ok s).
Proof.
  intros Hrun Hs Hle [H1 H2 H3 H4 H5].
  specialize (H5 Hrun).
  assert (Hpast : Forall (λ w : Write Value, (w_time w ≤ now)%Z)
            (writes s ++ [{| w_time := now; w_kind := Debounced; w_ok := ok;
                             w_groups := groups (table s) |}])).
  { apply Forall_app. split; [done|]. apply Forall_cons. simpl. split; [lia|done]. }
  assert (Hsp : DebouncedSpaced (interval s)
            (writes s ++ [{| w_time := now; w_kind := Debounced; w_ok := ok;
                             w_groups := groups (table s) |}])).
  { apply DebouncedSpaced_snoc; [done|]. simpl. intros _ w' Hl.
    specialize (H2 due w' Hs Hl). lia. }
  assert (Hdeb : Forall (λ w : Write Value, w_kind w = Debounced)
            (writes s ++ [{| w_time := now; w_kind := Debounced; w_ok := ok;
                             w_groups := groups (table s) |}])).
  { apply Forall_app. split; [done|]. by apply Forall_cons. }
  unfold persist. destruct ok; split; simpl; try done.
  - by apply FlushLast_debounced.
  - intros d w [= <-] Hl. rewrite last_snoc in Hl. injection Hl as <-. simpl. lia.
  - by apply FlushLast_debounced.
Qed.

Lemma Timely_shutdown now ok s :
  stopped s = false →
  Timely now s → Timely now (stop (persist FinalFlush now ok s)).
Proof.
  intros Hrun [H1 H2 H3 H4 H5].
  specialize (H5 Hrun).
  assert (writes (stop (persist FinalFlush now ok s)) =
          writes s ++ [{| w_time := now; w_kind := FinalFlush; w_ok := ok;
                          w_groups := groups (table s) |}]) as Hw.
  { unfold stop, persist. by destruct ok. }
  assert (interval (stop (persist FinalFlush now ok s)) = interval s) as Hi.
  { unfold stop, persist. by destruct ok. }
  split; rewrite ?Hw, ?Hi; try done.
  - apply Forall_app. split; [done|]. apply Forall_cons. simpl. split; [lia|done].
  - apply DebouncedSpaced_snoc; [done|]. simpl. discriminate.
  - by apply FlushLast_snoc.
Qed.

(** One message keeps the store timely, and never changes the interval. *)
Lemma Timely_process T now ok r s :
  (T ≤ now)%Z → Timely T s → Timely now (process now ok r s).1.
Proof.
  intros Hle HT. apply (Timely_later T now) in HT; [|done].
  unfold process. destruct (stopped s) eqn:Hrun; [done|].
  destruct r as [key families|key| | |]; simpl.
  - destruct (Push key families now (table s)); simpl; [done|].
    by apply Timely_markDirty.
  - by apply Timely_markDirty.
  - done.
  - destruct (persistenceEnabled s); simpl.
    + by apply Timely_shutdown.
    + destruct HT as [H1 H2 H3 H4 H5]. by split.
  - destruct (scheduled s) as [due|] eqn:Hs; simpl; [|done].
    destruct (due <=? now)%Z eqn:Hd; simpl; [|done].
    apply (Timely_persist now ok due); try done. lia.
Qed.

Lemma process_interval now ok r s : interval (process now ok r s).1 = interval s.
Proof.
  unfold process. destruct (stopped s); [done|].
  destruct r as [key families|key| | |]; simpl.
  - destruct (Push key families now (table s)); simpl; [done|].
    unfold markDirty, withTable; simpl.
    destruct (persistenceEnabled _ && _); [|done]. by destruct (scheduled s).
  - unfold markDirty, withTable; simpl.
    destruct (persistenceEnabled _ && _); [|done]. by destruct (scheduled s).
  - done.
  - unfold stop, persist. destruct (persistenceEnabled s); [|done]. by destruct ok.
  - destruct (scheduled s) as [due|]; [|done].
    destruct (due <=? now)%Z; [|done]. unfold persist. by destruct ok.
Qed.

Lemma process_file now ok r s : file (process now ok r s).1 = file s.
Proof.
  unfold process. destruct (stopped s); [done|].
  destruct r as [key families|key| | |]; simpl.
  - destruct (Push key families now (table s)); simpl; [done|].
    unfold markDirty, withTable; simpl.
    destruct (persistenceEnabled _ && _); [|done]. by destruct (scheduled s).
  - unfold markDirty, withTable; simpl.
    destruct (persistenceEnabled _ && _); [|done]. by destruct (scheduled s).
  - done.
  - unfold stop, persist. destruct (persistenceEnabled s); [|done]. by destruct ok.
  - destruct (scheduled s) as [due|]; [|done].
    destruct (due <=? now)%Z; [|done]. unfold persist. by destruct ok.
Qed.

Lemma Timely_runStore ops : ∀ T s,
  chronological T ops → Timely T s →
  ∃ T', Timely T' (runStore ops s) ∧ interval (runStore ops s) = interval s.
Proof.
  induction ops as [|[[now ok] r] ops IH]; intros T s Hc HT; simpl.
  - by exists T.
  - destruct Hc as [Hle Hc].
    destruct (IH now (process now ok r s).1 Hc) as (T' & HT' & Hi).
    { by apply (Timely_process T). }
    exists T'. split; [done|]. by rewrite Hi, process_interval.
Qed.

(** While a write is pending and not yet due, no message but Shutdown
    writes the file or moves the pending write. *)
Lemma process_pending now ok r due s :
  scheduled s = Some due → stopped s = false → (now < due)%Z →
  isShutdown r = false →
  scheduled (process now ok r s).1 = Some due ∧
  stopped (process now ok r s).1 = false ∧
  writes (process now ok r s).1 = writes s.
Proof.
  intros Hs Hrun Hlt Hr. unfold process. rewrite Hrun.
  destruct r as [key families|key| | |]; simpl; try done.
  - destruct (Push key families now (table s)); simpl; [done|].
    unfold markDirty, withTable; simpl.
    destruct (persistenceEnabled _ && _); [|done]. by rewrite Hs.
  - unfold markDirty, withTable; simpl.
    destruct (persistenceEnabled _ && _); [|done]. by rewrite Hs.
  - rewrite Hs. destruct (due <=? now)%Z eqn:Hd; [lia|done].
Qed.

Lemma runStore_pending ops : ∀ due s,
  scheduled s = Some due → stopped s = false →
  Forall (λ op, (op.1.1 < due)%Z ∧ isShutdown op.2 = false) ops →
  scheduled (runStore ops s) = Some due ∧
  stopped (runStore ops s) = false ∧
  writes (runStore ops s) = writes s.
Proof.
  induction ops as [|[[now ok] r] ops IH]; intros due s Hs Hrun Hall; simpl.
  - done.
  - apply Forall_cons in Hall as [[Hlt Hr] Hall]. simpl in Hlt, Hr.
    destruct (process_pending now ok r due s) as (Hs' & Hrun' & Hw'); try done.
    destruct (IH due (process now ok r s).1) as (? & ? & Hw); try done.
    by rewrite Hw, Hw'.
Qed.

Lemma runStore_app ops1 ops2 (s : DiskMetricStore Value) :
  runStore (ops1 ++ ops2) s = runStore ops2 (runStore ops1 s).
Proof.
  revert s. induction ops1 as [|[[now ok] r] ops1 IH]; intros s; simpl; [done|].
  apply IH.
Qed.

(** An accepted push on a store with persistence and no pending write
    starts an interval: the write falls due one interval later. *)
Lemma process_push_schedules now ok key families s s' :
  process now ok (ReqPush key families) s = (s', RespDone) →
  persistenceEnabled s = true → scheduled s = None →
  scheduled s' = Some (now + interval s)%Z ∧ writes s' = writes s.
Proof.
  intros H He Hs. pose proof (process_running _ _ _ _ _ H) as Hrun.
  unfold process in H. rewrite Hrun in H.
  destruct (Push key families now (table s)) as [e|t'] eqn:HP; [discriminate|].
  apply Push_inr in HP as [Hv ->]. injection H as <-.
  unfold markDirty, withTable, persistenceEnabled in *; simpl.
  by rewrite He, Hs.
Qed.

(** Without a persistence file nothing is ever scheduled or written. *)
Lemma process_memory_only now ok r s :
  file s = "" → writes s = [] → scheduled s = None →
  file (process now ok r s).1 = "" ∧ writes (process now ok r s).1 = [] ∧
  scheduled (process now ok r s).1 = None ∧
  disk (process now ok r s).1 = disk s.
Proof.
  intros Hf Hw Hs.
  assert (He : persistenceEnabled s = false).
  { unfold persistenceEnabled. by rewrite Hf. }
  unfold process. destruct (stopped s); [done|].
  destruct r as [key families|key| | |]; simpl.
  - destruct (Push key families now (table s)); simpl; [done|].
    unfold markDirty, withTable, persistenceEnabled; simpl. by rewrite Hf.
  - unfold markDirty, withTable, persistenceEnabled; simpl. by rewrite Hf.
  - done.
  - by rewrite He.
  - by rewrite Hs.
Qed.

(** A store that has accepted Shutdown ignores every message. *)
Lemma process_stopped now ok r s :
  stopped s = true → (process now ok r s).1 = s.
Proof. intros H. unfold process. by rewrite H. Qed.

(** No message but Shutdown stops the store. *)
Lemma process_keeps_running now ok r s :
  stopped s = false → isShutdown r = false →
  stopped (process now ok r s).1 = false.
Proof.
  intros Hrun Hr. unfold process. rewrite Hrun.
  destruct r as [key families|key| | |]; simpl; try done.
  - destruct (Push key families now (table s)); simpl; [done|].
    unfold markDirty, withTable; simpl.
    destruct (persistenceEnabled _ && _); [|done]. by destruct (scheduled s).
  - unfold markDirty, withTable; simpl.
    destruct (persistenceEnabled _ && _); [|done]. by destruct (scheduled s).
  - destruct (scheduled s) as [due|]; [|done].
    destruct (due <=? now)%Z; [|done]. unfold persist. by destruct ok.
Qed.

(** The timer message does nothing while no write is pending. *)
Lemma process_persist_idle now ok s :
  scheduled s = None → (process now ok ReqPersist s).1 = s.
Proof.
  intros H. unfold process. destruct (stopped s); [done|]. by rewrite H.
Qed.

(** What one message does to the groups. *)
Lemma process_groups now ok r s :
  (groups (table (process now ok r s).1) = groups (table s) ∧
   ((process now ok r s).2 = RespDone → ∀ key families, r ≠ ReqPush key families)) ∨
  (∃ key families, r = ReqPush key families ∧ (process now ok r s).2 = RespDone ∧
     groups (table (process now ok r s).1)
     = <[key := newGroup families now]> (groups (table s))) ∨
  (∃ key, r = ReqDelete key ∧
     groups (table (process now ok r s).1) = delete key (groups (table s))).
Proof.
  unfold process. destruct (stopped s); [by left|].
  destruct r as [key families|key| | |]; simpl.
  - destruct (Push key families now (table s)) as [e|t'] eqn:HP; [by left|].
    right. left. exists key, families. split; [done|]. split; [done|].
    apply Push_inr in HP as [_ ->].
    unfold markDirty, withTable; simpl.
    destruct (persistenceEnabled _); simpl; [|done]. by destruct (scheduled s).
  - right. right. exists key. split; [done|].
    assert (groups (table (markDirty now (withTable (Delete key (table s)) s)))
            = groups (Delete key (table s))) as ->.
    { unfold markDirty, withTable; simpl.
      destruct (persistenceEnabled _ && _); [|done]. by destruct (scheduled s). }
    unfold Delete. destruct (groups (table s) !! key) eqn:E; [done|].
    by rewrite delete_id.
  - left. by split.
  - left. unfold stop, persist.
    destruct (persistenceEnabled s); [|by split]. by destruct ok.
  - left. destruct (scheduled s) as [due|]; [|by split].
    destruct (due <=? now)%Z; [|by split]. unfold persist. by destruct ok.
Qed.

(** A snapshot is returned to a read only, and it is the table as it is. *)
Lemma process_snapshot now ok r s g :
  (process now ok r s).2 = RespSnapshot g →
  r = ReqReadSnapshot ∧ g = groups (table s) ∧ (process now ok r s).1 = s.
Proof.
  unfold process. destruct (stopped s); [discriminate|].
  destruct r as [key families|key| | |]; simpl; try discriminate.
  - by destruct (Push key families now (table s)).
  - by intros [= <-].
  - destruct (persistenceEnabled s); [|discriminate]. by destruct ok.
  - destruct (scheduled s) as [due|]; [|discriminate].
    by destruct (due <=? now)%Z.
Qed.

(** C1.  A push to a key that already holds a group replaces the group
    wholly.  When [A] and then [B] are pushed to [key] and both pushes are
    accepted, a read returns at [key] the group made of [B] alone: its
    families are exactly the families of [B], and the snapshot (and so the
    merged exposition) is the table from before the two pushes with [key]
    bound to [B]'s group, whatever [A] was. *)
Theorem push_replaces_group key (A B : list (MetricFamily Value))
    tA tB okA okB s sA sB :
  process tA okA (ReqPush key A) s = (sA, RespDone) →
  process tB okB (ReqPush key B) sA = (sB, RespDone) →
  ∀ tR okR, ∃ g,
    process tR okR ReqReadSnapshot sB = (sB, RespSnapshot g) ∧
    g !! key = Some (newGroup B tB) ∧
    (∀ n f, g_families (newGroup B tB) !! n = Some f ↔ f ∈ B ∧ mf_name f = n) ∧
    g = <[key := newGroup B tB]> (groups (table s)) ∧
    GetMetricFamilies sB = (merge (<[key := newGroup B tB]> (groups (table s)))).1.
Proof.
  intros HA HB tR okR.
  apply process_push_done in HA as (_ & _ & HgA & _ & _).
  apply process_push_done in HB as (_ & HvB & HgB & _ & HrunB).
  assert (Hg : groups (table sB) = <[key := newGroup B tB]> (groups (table s))).
  { rewrite HgB, HgA. apply insert_insert_eq. }
  exists (groups (table sB)).
  split; [by unfold process; rewrite HrunB|].
  split; [by rewrite Hg, lookup_insert_eq|].
  split; [intros n f; apply familyMap_lookup, (validPush_NoDup key), HvB|].
  split; [done|].
  unfold GetMetricFamilies, process. rewrite HrunB. simpl.
  unfold GetAllGroups. by rewrite Hg.
Qed.

(** C3.  Delete always succeeds, whether or not a group exists at the key.
    Afterwards no group is at the key, the group under every other key is
    the one that was there, a second delete changes nothing, a delete of a
    key that holds no group leaves the table as it is, and the owner of a
    running store answers a delete request with success. *)
Theorem delete_idempotent key t :
  GetAllGroups (Delete key t) !! key = None ∧
  (∀ key', key' ≠ key →
     GetAllGroups (Delete key t) !! key' = GetAllGroups t !! key') ∧
  Delete key (Delete key t) = Delete key t ∧
  (GetAllGroups t !! key = None → Delete key t = t) ∧
  (∀ now ok s, stopped s = false →
     (process now ok (ReqDelete key) s).2 = RespDone ∧
     table (process now ok (ReqDelete key) s).1 = Delete key (table s)).
Proof.
  unfold GetAllGroups, Delete.
  repeat split.
  - destruct (groups t !! key) eqn:E; simpl; [apply lookup_delete_eq|done].
  - intros key' Hne. destruct (groups t !! key) eqn:E; simpl; [|done].
    by apply lookup_delete_ne.
  - destruct (groups t !! key) eqn:E; simpl; [|by rewrite E].
    by rewrite lookup_delete_eq.
  - by intros ->.
  - unfold process. by rewrite H.
  - unfold process. rewrite H. simpl.
    unfold markDirty, withTable; simpl.
    destruct (persistenceEnabled _ && _); [|done].
    by destruct (scheduled s).
Qed.

(** C4, as amended.  Take any run of a store from its creation, with the
    instants in order.  Every debounced write comes at least the configured
    interval after the write before it, and the only write exempt from the
    interval is the final flush of Shutdown, which is the last write.  When
    an accepted push marks the table dirty at [t1] with no write pending,
    then whatever further messages (mutations among them) are processed
    before [t1 + d], none of them writes, and the timer message at or after
    [t1 + d] makes exactly one write, of the state current at that time. *)
Theorem writes_debounced file d onDisk (t0 : Z) ops :
  chronological t0 ops →
  let s := runStore ops (NewDiskMetricStore (Value:=Value) file d onDisk t0) in
  DebouncedSpaced d (writes s) ∧ FlushLast (writes s) ∧
  ∀ key families (t1 : Z) ok1 s1 more (t : Z) ok,
    persistenceEnabled s = true → scheduled s = None →
    process t1 ok1 (ReqPush key families) s = (s1, RespDone) →
    Forall (λ op, (op.1.1 < t1 + d)%Z ∧ isShutdown op.2 = false) more →
    (t1 + d ≤ t)%Z →
    writes (runStore more s1) = writes s ∧
    writes (runStore (more ++ [(t, ok, ReqPersist)]) s1) =
      writes s ++ [{| w_time := t; w_kind := Debounced; w_ok := ok;
                      w_groups := groups (table (runStore more s1)) |}].
Proof.
  intros Hc s.
  destruct (Timely_runStore ops t0 (NewDiskMetricStore file d onDisk t0) Hc
              (Timely_new file d onDisk t0)) as (T & [_ _ Hsp Hfl _] & Hi).
  fold s in Hsp, Hfl, Hi. simpl in Hi.
  split; [by rewrite <- Hi|]. split; [done|].
  intros key families t1 ok1 s1 more t ok He Hs HP Hmore Hle.
  destruct (process_push_schedules _ _ _ _ _ _ HP He Hs) as [Hs1 Hw1].
  apply process_push_done in HP as (_ & _ & _ & _ & Hrun1).
  rewrite Hi in Hs1.
  destruct (runStore_pending more (t1 + d)%Z s1 Hs1 Hrun1 Hmore) as (Hs2 & Hrun2 & Hw2).
  split; [by rewrite Hw2|].
  rewrite runStore_app. simpl. unfold process. rewrite Hrun2, Hs2.
  destruct (t1 + d <=? t)%Z eqn:Hd; [|lia].
  simpl. unfold persist. destruct ok; simpl; by rewrite Hw2, Hw1.
Qed.

End WithValue.
End StorageFacts.

(** * Properties of [main.go] *)

Module MainFacts.
Import Storage Main StorageFacts.

(** ** The route table *)

Lemma append_cons c (s t : string) : String c s +:+ t = String c (s +:+ t).
Proof. reflexivity. Qed.

Lemma append_nil (t : string) : "" +:+ t = t.
Proof. reflexivity. Qed.

Lemma span_all f (s rest : string) :
  allChars f s = true → f (nextByte rest) = false ∨ rest = "" →
  span f (s +:+ rest) = (s, rest).
Proof.
  intros Hs Hr. induction s as [|c s IH]; simpl in *.
  - destruct rest as [|c rest]; [done|].
    simpl. destruct Hr as [Hr|Hr]; [|done]. simpl in Hr. by rewrite Hr.
  - apply andb_prop in Hs as [Hc Hs]. by rewrite Hc, (IH Hs).
Qed.

Lemma span_all_end f (s : string) : allChars f s = true → span f s = (s, "").
Proof.
  intros Hs. induction s as [|c s IH]; simpl in *; [done|].
  apply andb_prop in Hs as [Hc Hs]. by rewrite Hc, (IH Hs).
Qed.

Lemma allChars_impl (f g : ascii → bool) s :
  (∀ c, f c = true → g c = true) → allChars f s = true → allChars g s = true.
Proof.
  intros Hfg. induction s as [|c s IH]; simpl; [done|].
  intros [Hc Hs]%andb_prop. by rewrite (Hfg c Hc), (IH Hs).
Qed.

Lemma plain_slash s : allChars plain s = true → allChars (matchPart "/") s = true.
Proof.
  apply allChars_impl. intros c. unfold plain, matchPart.
  intros [H _]%andb_prop. by rewrite H.
Qed.

Lemma plain_zero s : allChars plain s = true → allChars (matchPart zero) s = true.
Proof.
  apply allChars_impl. intros c. unfold plain, matchPart.
  intros [H1 H2]%andb_prop. by rewrite H1, H2.
Qed.

Lemma isSegment_cons s :
  isSegment s = true → ∃ c s', s = String c s' ∧ allChars plain s = true.
Proof.
  unfold isSegment. intros [Hn Hp]%andb_prop.
  destruct s as [|c s']; [done|]. by exists c, s'.
Qed.

Definition notColon (c : ascii) : bool := negb (bool_decide (c = ":"%char)).

(** A literal run of the pattern consumes the same run of the path. *)
Lemma tryLoop_literal lit : ∀ fuel whole pat path p,
  allChars notColon lit = true →
  tryLoop (String.length lit + fuel) whole (lit +:+ pat) (lit +:+ path) p
  = tryLoop fuel whole pat path p.
Proof.
  induction lit as [|c lit IH]; intros fuel whole pat path p Hl; [done|].
  simpl in Hl. apply andb_prop in Hl as [Hc Hl].
  rewrite !append_cons. cbn [String.length Nat.add tryLoop].
  unfold notColon in Hc. apply negb_true_iff in Hc. rewrite Hc.
  rewrite bool_decide_eq_true_2 by done. by apply IH.
Qed.

(** A parameter of the pattern captures a run of the path. *)
Lemma tryLoop_param fuel whole pat c path p :
  tryLoop (S fuel) whole (String ":" pat) (String c path) p
  = tryLoop fuel whole (span isAlnum pat).2
      (span (matchPart (nextByte (span isAlnum pat).2)) (String c path)).2
      (p ++ [(String ":" (span isAlnum pat).1,
              (span (matchPart (nextByte (span isAlnum pat).2)) (String c path)).1)]).
Proof. reflexivity. Qed.

Lemma try_job_instance job instance :
  isSegment job = true → isSegment instance = true →
  try "/metrics/job/:job/instance/:instance"
      ("/metrics/job/" +:+ job +:+ "/instance/" +:+ instance)
  = Some [(":job", job); (":instance", instance)].
Proof.
  intros (c & job' & Hj & Hpj)%isSegment_cons (d & inst' & Hi & Hpi)%isSegment_cons.
  unfold try.
  etrans; [exact (tryLoop_literal "/metrics/job/" 23 _ ":job/instance/:instance"
                    _ _ eq_refl)|].
  rewrite Hj at 1. rewrite append_cons, tryLoop_param, <- append_cons, <- Hj.
  change (span isAlnum "job/instance/:instance") with ("job", "/instance/:instance").
  cbn [fst snd nextByte].
  rewrite (span_all _ job) by (by apply plain_slash || by left).
  cbn [fst snd app].
  etrans; [exact (tryLoop_literal "/instance/" 12 _ ":instance" _ _ eq_refl)|].
  rewrite Hi at 1. rewrite tryLoop_param, <- Hi.
  change (span isAlnum "instance") with ("instance", "").
  cbn [fst snd nextByte].
  rewrite (span_all_end _ instance) by (by apply plain_zero).
  reflexivity.
Qed.

Lemma try_job job :
  isSegment job = true →
  try "/metrics/job/:job" ("/metrics/job/" +:+ job) = Some [(":job", job)].
Proof.
  intros (c & job' & Hj & Hpj)%isSegment_cons.
  unfold try.
  etrans; [exact (tryLoop_literal "/metrics/job/" 4 _ ":job" _ _ eq_refl)|].
  rewrite Hj at 1. rewrite tryLoop_param, <- Hj.
  change (span isAlnum "job") with ("job", "").
  cbn [fst snd nextByte].
  rewrite (span_all_end _ job) by (by apply plain_zero).
  reflexivity.
Qed.

(** The path of the job-only shape does not match the longer pattern. *)
Lemma try_job_short job :
  isSegment job = true →
  try "/metrics/job/:job/instance/:instance" ("/metrics/job/" +:+ job) = None.
Proof.
  intros (c & job' & Hj & Hpj)%isSegment_cons.
  unfold try.
  etrans; [exact (tryLoop_literal "/metrics/job/" 23 _ ":job/instance/:instance"
                    _ _ eq_refl)|].
  rewrite Hj at 1. rewrite tryLoop_param, <- Hj.
  change (span isAlnum "job/instance/:instance") with ("job", "/instance/:instance").
  cbn [fst snd nextByte].
  rewrite (span_all_end _ job) by (by apply plain_slash).
  reflexivity.
Qed.

(** ** Canonical paths *)

Lemma splitSlash_app (s rest : string) :
  allChars plain s = true →
  splitSlash (s +:+ String "/" rest) = s :: splitSlash rest.
Proof.
  intros Hs. induction s as [|c s IH]; [done|].
  cbn [allChars] in Hs. apply andb_prop in Hs as [Hc Hs].
  rewrite append_cons. cbn [splitSlash]. rewrite (IH Hs).
  unfold plain in Hc. apply andb_prop in Hc as [Hc _].
  apply negb_true_iff, bool_decide_eq_false in Hc.
  by rewrite bool_decide_eq_false_2.
Qed.

Lemma splitSlash_end (s : string) : allChars plain s = true → splitSlash s = [s].
Proof.
  intros Hs. induction s as [|c s IH]; [done|].
  cbn [allChars] in Hs. apply andb_prop in Hs as [Hc Hs].
  cbn [splitSlash]. rewrite (IH Hs).
  unfold plain in Hc. apply andb_prop in Hc as [Hc _].
  apply negb_true_iff, bool_decide_eq_false in Hc.
  by rewrite bool_decide_eq_false_2.
Qed.

Lemma cleanStep_keep out elem :
  elem ≠ "" → elem ≠ "." → elem ≠ ".." → cleanStep out elem = out ++ [elem].
Proof.
  intros H0 H1 H2. unfold cleanStep.
  by rewrite !bool_decide_eq_false_2.
Qed.

Lemma hasTrailingSlash_cons c (s : string) :
  s ≠ "" → hasTrailingSlash (String c s) = hasTrailingSlash s.
Proof. by destruct s. Qed.

Lemma hasTrailingSlash_app (pre s : string) :
  s ≠ "" → hasTrailingSlash (pre +:+ s) = hasTrailingSlash s.
Proof.
  intros Hs. induction pre as [|a pre IH]; [done|].
  rewrite append_cons, hasTrailingSlash_cons; [done|]. by destruct pre, s.
Qed.

Lemma hasTrailingSlash_segment (pre s : string) :
  isSegment s = true → hasTrailingSlash (pre +:+ s) = false.
Proof.
  intros (c & s' & -> & Hs)%isSegment_cons.
  induction pre as [|a pre IH].
  - rewrite append_nil. clear -Hs. revert c Hs.
    induction s' as [|b s' IH]; intros c Hs.
    + cbn in *. unfold plain in Hs. rewrite andb_true_r in Hs.
      apply andb_prop in Hs as [Hc _].
      apply negb_true_iff, bool_decide_eq_false in Hc.
      by rewrite bool_decide_eq_false_2.
    + cbn [allChars] in Hs. apply andb_prop in Hs as [_ Hs].
      rewrite hasTrailingSlash_cons by done. by apply IH.
  - rewrite append_cons, hasTrailingSlash_cons; [done|]. by destruct pre.
Qed.

Lemma isSegment_plain s : isSegment s = true → allChars plain s = true ∧ s ≠ "".
Proof.
  unfold isSegment. intros [Hn Hs]%andb_prop. split; [done|].
  by apply negb_true_iff, bool_decide_eq_false in Hn.
Qed.

Lemma isCleanSegment_spec s :
  isCleanSegment s = true → isSegment s = true ∧ s ≠ "." ∧ s ≠ "..".
Proof.
  unfold isCleanSegment. intros [[Hs H1]%andb_prop H2]%andb_prop.
  apply negb_true_iff, bool_decide_eq_false in H1, H2. done.
Qed.

Lemma cleanPath_job_instance job instance :
  isSegment job = true → isSegment instance = true →
  job ≠ "." → job ≠ ".." → instance ≠ "." → instance ≠ ".." →
  cleanPath ("/metrics/job/" +:+ job +:+ "/instance/" +:+ instance)
  = "/metrics/job/" +:+ job +:+ "/instance/" +:+ instance.
Proof.
  intros Hj Hi Hj1 Hj2 Hi1 Hi2.
  destruct (isSegment_plain job Hj) as [Hpj Hnj].
  destruct (isSegment_plain instance Hi) as [Hpi Hni].
  unfold cleanPath. rewrite bool_decide_eq_false_2 by done.
  change (bool_decide (nextByte _ = "/"%char)) with true. cbv iota.
  rewrite (hasTrailingSlash_app "/metrics/job/") by (by destruct job).
  rewrite (hasTrailingSlash_app job) by done.
  rewrite (hasTrailingSlash_segment "/instance/" instance Hi).
  cbn [andb]. unfold Clean.
  change ("/metrics/job/" +:+ job +:+ "/instance/" +:+ instance)
    with ("" +:+ String "/" ("metrics" +:+ String "/" ("job" +:+ String "/"
            (job +:+ String "/" ("instance" +:+ String "/" instance))))) at 1.
  rewrite !splitSlash_app, (splitSlash_end instance) by done.
  cbn [foldl]. rewrite (cleanStep_keep _ instance) by done.
  rewrite (cleanStep_keep _ job) by done.
  reflexivity.
Qed.

Lemma cleanPath_job job :
  isSegment job = true → job ≠ "." → job ≠ ".." →
  cleanPath ("/metrics/job/" +:+ job) = "/metrics/job/" +:+ job.
Proof.
  intros Hj Hj1 Hj2.
  destruct (isSegment_plain job Hj) as [Hpj Hnj].
  unfold cleanPath. rewrite bool_decide_eq_false_2 by done.
  change (bool_decide (nextByte _ = "/"%char)) with true. cbv iota.
  rewrite (hasTrailingSlash_segment "/metrics/job/" job Hj).
  cbn [andb]. unfold Clean.
  change ("/metrics/job/" +:+ job)
    with ("" +:+ String "/" ("metrics" +:+ String "/" ("job" +:+ String "/" job))) at 1.
  rewrite !splitSlash_app, (splitSlash_end job) by done.
  cbn [foldl]. rewrite (cleanStep_keep _ job) by done.
  reflexivity.
Qed.

Lemma mounted_metrics rest :
  mounted ("/metrics" +:+ rest) = Some ("/", PatMux).
Proof. reflexivity. Qed.

Section WithValue.
Context {Value : Type} (float64 : Z → Value) (formatValue : Value → string).

Local Opaque try.

Lemma dispatch_put_both job instance m :
  isSegment job = true → isSegment instance = true → m = "PUT" ∨ m = "POST" →
  dispatch mux m ("/metrics/job/" +:+ job +:+ "/instance/" +:+ instance)
  = Some (PushHandler, [(":job", job); (":instance", instance)]).
Proof.
  intros Hj Hi [-> | ->]; simpl; by rewrite try_job_instance.
Qed.

Lemma dispatch_put_job job m :
  isSegment job = true → m = "PUT" ∨ m = "POST" →
  dispatch mux m ("/metrics/job/" +:+ job) = Some (PushHandler, [(":job", job)]).
Proof.
  intros Hj [-> | ->]; simpl; by rewrite try_job_short, try_job.
Qed.

Lemma dispatch_delete_both job instance :
  isSegment job = true → isSegment instance = true →
  dispatch mux "DELETE" ("/metrics/job/" +:+ job +:+ "/instance/" +:+ instance)
  = Some (DeleteHandler, [(":job", job); (":instance", instance)]).
Proof. intros Hj Hi. simpl. by rewrite try_job_instance. Qed.

Lemma dispatch_delete_job job :
  isSegment job = true →
  dispatch mux "DELETE" ("/metrics/job/" +:+ job) = Some (DeleteHandler, [(":job", job)]).
Proof. intros Hj. simpl. by rewrite try_job_short, try_job. Qed.

Local Transparent try.

Lemma dispatch_get_metrics : dispatch mux "GET" "/metrics" = Some (MetricsHandler, []).
Proof. reflexivity. Qed.

Lemma ServeHTTP_canonical now rt req (w : World Value) :
  cleanPath (path req) = path req → mounted (path req) = Some ("/", PatMux) →
  ServeHTTP float64 formatValue now rt req w
  = servePat float64 formatValue now rt req w.
Proof.
  intros Hc Hm. unfold ServeHTTP.
  rewrite Hc, String.eqb_refl. cbn [negb]. by rewrite andb_false_r, Hm.
Qed.

(** C5 (amended).  The HTTP surface on canonical paths.  For path segments
    [job] and [instance] other than [.] and [..], a PUT or POST on
    [/metrics/job/:job/instance/:instance] pushes the payload to the store
    under the key of the labels job and instance, and on [/metrics/job/:job]
    under the key of the label job alone; a DELETE on the two shapes deletes
    the group at the same keys; a GET on [/metrics] answers with the text
    exposition of what the registry gathers, which for a running store
    includes the merge of the stored groups.  A request whose path is not in
    canonical form reaches none of these: it is answered with a redirect to
    the clean path and leaves store and globals as they are. *)
Theorem routes_reach_store job instance now rt (w : World Value) :
  isCleanSegment job = true → isCleanSegment instance = true →
  let both := "/metrics/job/" +:+ job +:+ "/instance/" +:+ instance in
  let only := "/metrics/job/" +:+ job in
  let serve := ServeHTTP float64 formatValue now rt in
  (∀ m families, m = "PUT" ∨ m = "POST" →
     serve {| method := m; path := both; body := Some families |} w =
       let res := process now true
                    (ReqPush [("instance", instance); ("job", job)] families) (ms w) in
       ({| globals := globals w; ms := res.1 |}, answer res.2, [])) ∧
  (∀ m families, m = "PUT" ∨ m = "POST" →
     serve {| method := m; path := only; body := Some families |} w =
       let res := process now true (ReqPush [("job", job)] families) (ms w) in
       ({| globals := globals w; ms := res.1 |}, answer res.2, [])) ∧
  (∀ b, serve {| method := "DELETE"; path := both; body := b |} w =
       let res := process now true
                    (ReqDelete [("instance", instance); ("job", job)]) (ms w) in
       ({| globals := globals w; ms := res.1 |}, answer res.2, [])) ∧
  (∀ b, serve {| method := "DELETE"; path := only; body := b |} w =
       let res := process now true (ReqDelete [("job", job)]) (ms w) in
       ({| globals := globals w; ms := res.1 |}, answer res.2, [])) ∧
  (∀ b, serve {| method := "GET"; path := "/metrics"; body := b |} w =
       let u := updateInternalMetrics float64 rt (globals w) in
       ({| globals := u.1; ms := ms w |},
        Exposition (exposition formatValue
                      ((registry u.1 ≫= familyOf u.1) ++ GetMetricFamilies (ms w))),
        u.2)) ∧
  (stopped (ms w) = false →
     GetMetricFamilies (ms w) = (merge (GetAllGroups (table (ms w)))).1) ∧
  (∀ req, method req ≠ "CONNECT" → cleanPath (path req) ≠ path req →
     serve req w = (w, StatusMovedPermanently (cleanPath (path req)), [])).
Proof.
  intros (Hj & Hj1 & Hj2)%isCleanSegment_spec (Hi & Hi1 & Hi2)%isCleanSegment_spec.
  intros both only serve. subst both only serve.
  pose proof (cleanPath_job_instance job instance Hj Hi Hj1 Hj2 Hi1 Hi2) as Hboth.
  pose proof (cleanPath_job job Hj Hj1 Hj2) as Honly.
  split; [|split; [|split; [|split; [|split; [|split]]]]].
  - intros m families Hm.
    rewrite ServeHTTP_canonical by first [exact Hboth|reflexivity].
    unfold servePat. cbn [path method body].
    by rewrite (dispatch_put_both job instance m Hj Hi Hm).
  - intros m families Hm.
    rewrite ServeHTTP_canonical by first [exact Honly|reflexivity].
    unfold servePat. cbn [path method body].
    by rewrite (dispatch_put_job job m Hj Hm).
  - intros b.
    rewrite ServeHTTP_canonical by first [exact Hboth|reflexivity].
    unfold servePat. cbn [path method body].
    by rewrite (dispatch_delete_both job instance Hj Hi).
  - intros b.
    rewrite ServeHTTP_canonical by first [exact Honly|reflexivity].
    unfold servePat. cbn [path method body].
    by rewrite (dispatch_delete_job job Hj).
  - intros b.
    rewrite ServeHTTP_canonical by reflexivity.
    unfold servePat, metricsHandler.
    generalize (updateInternalMetrics float64 rt (globals w)). intros U.
    cbn [path method body]. rewrite dispatch_get_metrics. reflexivity.
  - intros Hrun. unfold GetMetricFamilies, process. by rewrite Hrun.
  - intros req Hm Hc. unfold ServeHTTP.
    rewrite bool_decide_eq_false_2 by done.
    apply String.eqb_neq in Hc. by rewrite Hc.
Qed.

(** ** The internal metrics *)

(** The metric objects keep their kinds. *)
Definition kindsKept (g : Globals Value) : Prop :=
  m_kind <$> heap g = m_kind <$> newMetrics (Value:=Value).

Definition registryKept (g : Globals Value) : Prop :=
  registry g = registry (registerInternalMetrics float64 initialGlobals).

Lemma kindsKept_heap (hp : list (Metric Value)) :
  m_kind <$> hp = m_kind <$> newMetrics (Value:=Value) →
  ∃ v0 v1 v2 v3 v4 v5 v6,
    hp = [ {| m_kind := GaugeMetric; m_value := v0 |};
           {| m_kind := GaugeMetric; m_value := v1 |};
           {| m_kind := GaugeMetric; m_value := v2 |};
           {| m_kind := GaugeMetric; m_value := v3 |};
           {| m_kind := GaugeMetric; m_value := v4 |};
           {| m_kind := GaugeMetric; m_value := v5 |};
           {| m_kind := CounterMetric; m_value := v6 |} ].
Proof.
  intros H. cbn in H.
  do 7 (destruct hp as [|[? ?] hp]; cbn in H; [discriminate H|]).
  destruct hp; cbn in H; [|discriminate H].
  injection H as -> -> -> -> -> -> ->. by do 7 eexists.
Qed.

Lemma update_refreshes rt g :
  kindsKept g →
  updateInternalMetrics float64 rt g =
    ({| memStats := ReadMemStats rt;
        heap :=
          [ {| m_kind := GaugeMetric; m_value := Some (float64 (NumGoroutine rt)) |};
            {| m_kind := GaugeMetric;
               m_value := Some (float64 (Alloc (ReadMemStats rt))) |};
            {| m_kind := GaugeMetric;
               m_value := Some (float64 (TotalAlloc (ReadMemStats rt))) |};
            {| m_kind := GaugeMetric;
               m_value := Some (float64 (HeapAlloc (ReadMemStats rt))) |};
            {| m_kind := GaugeMetric;
               m_value := Some (float64 (NextGC (ReadMemStats rt))) |};
            {| m_kind := GaugeMetric;
               m_value := Some (float64 (PauseTotalNs (ReadMemStats rt))) |};
            {| m_kind := CounterMetric;
               m_value := Some (float64 (NumGC (ReadMemStats rt))) |} ];
        registry := registry g |}, []).
Proof.
  unfold kindsKept. destruct g as [mem hp reg]. cbn [heap registry].
  intros (v0 & v1 & v2 & v3 & v4 & v5 & v6 & ->)%kindsKept_heap.
  vm_compute. reflexivity.
Qed.

Local Opaque updateInternalMetrics.

Lemma metricsHandler_unfold rt (w : World Value) :
  metricsHandler float64 formatValue rt w =
    ({| globals := (updateInternalMetrics float64 rt (globals w)).1; ms := ms w |},
     Exposition (DefaultHandler formatValue
                   (updateInternalMetrics float64 rt (globals w)).1 (ms w)),
     (updateInternalMetrics float64 rt (globals w)).2).
Proof. reflexivity. Qed.

Lemma update_keeps rt g :
  kindsKept g → registryKept g →
  kindsKept (updateInternalMetrics float64 rt g).1 ∧
  registryKept (updateInternalMetrics float64 rt g).1 ∧
  (updateInternalMetrics float64 rt g).2 = [].
Proof.
  intros Hk Hr. rewrite (update_refreshes rt g Hk).
  split; [reflexivity|]. split; [exact Hr|reflexivity].
Qed.

(** What a handler can do to the world: the metrics handler refreshes the
    internal metrics and leaves the store alone; every other handler leaves
    the globals alone, logs nothing and sends the store at most one
    message. *)
Lemma servePat_cases now rt req (w : World Value) :
  (∃ U resp, U = updateInternalMetrics float64 rt (globals w) ∧
        servePat float64 formatValue now rt req w =
          ({| globals := U.1; ms := ms w |}, resp, U.2)) ∨
  (globals (servePat float64 formatValue now rt req w).1.1 = globals w ∧
   (servePat float64 formatValue now rt req w).2 = [] ∧
   (ms (servePat float64 formatValue now rt req w).1.1 = ms w ∨
    ∃ r, isShutdown r = false ∧
         ms (servePat float64 formatValue now rt req w).1.1
         = (process now true r (ms w)).1)).
Proof.
  unfold servePat.
  destruct (dispatch mux (method req) (path req)) as [[[| |] params]|].
  - left. rewrite metricsHandler_unfold.
    remember (updateInternalMetrics float64 rt (globals w)) as U eqn:EU.
    exists U, (if bool_decide (method req = "HEAD") then StatusOK
               else Exposition (DefaultHandler formatValue U.1 (ms w))).
    split; [reflexivity|]. clear EU. reflexivity.
  - right. split; [reflexivity|]. split; [reflexivity|].
    cbn [fst snd ms]. unfold handlerPush.
    destruct (newGroupingKey (labelsOf params)) as [e|key]; [left; reflexivity|].
    destruct (body req) as [families|]; [|left; reflexivity].
    right. exists (ReqPush key families). split; reflexivity.
  - right. split; [reflexivity|]. split; [reflexivity|].
    cbn [fst snd ms]. unfold handlerDelete.
    destruct (newGroupingKey (labelsOf params)) as [e|key]; [left; reflexivity|].
    right. exists (ReqDelete key). split; reflexivity.
  - right. split; [reflexivity|]. split; [reflexivity|]. left. reflexivity.
Qed.

Lemma ServeHTTP_cases now rt req (w : World Value) :
  (∃ U resp, U = updateInternalMetrics float64 rt (globals w) ∧
        ServeHTTP float64 formatValue now rt req w =
          ({| globals := U.1; ms := ms w |}, resp, U.2)) ∨
  (globals (ServeHTTP float64 formatValue now rt req w).1.1 = globals w ∧
   (ServeHTTP float64 formatValue now rt req w).2 = [] ∧
   (ms (ServeHTTP float64 formatValue now rt req w).1.1 = ms w ∨
    ∃ r, isShutdown r = false ∧
         ms (ServeHTTP float64 formatValue now rt req w).1.1
         = (process now true r (ms w)).1)).
Proof.
  unfold ServeHTTP.
  destruct (negb (bool_decide (method req = "CONNECT"))
            && negb (String.eqb (cleanPath (path req)) (path req))).
  { right. split; [reflexivity|]. split; [reflexivity|]. left. reflexivity. }
  destruct (mounted (path req)) as [[? [|location|]]|].
  - right. split; [reflexivity|]. split; [reflexivity|]. left. reflexivity.
  - right. split; [reflexivity|]. split; [reflexivity|]. left. reflexivity.
  - apply servePat_cases.
  - right. split; [reflexivity|]. split; [reflexivity|]. left. reflexivity.
Qed.

Lemma ServeHTTP_keeps now rt req (w : World Value) :
  kindsKept (globals w) → registryKept (globals w) →
  kindsKept (globals (ServeHTTP float64 formatValue now rt req w).1.1) ∧
  registryKept (globals (ServeHTTP float64 formatValue now rt req w).1.1) ∧
  (ServeHTTP float64 formatValue now rt req w).2 = [].
Proof.
  intros Hk Hr.
  pose proof (ServeHTTP_cases now rt req w) as H.
  remember (ServeHTTP float64 formatValue now rt req w) as res eqn:E. clear E.
  destruct H as [(U & resp & EU & H) | (Hg & Hl & _)].
  - pose proof (update_keeps rt (globals w) Hk Hr) as HU.
    rewrite <- EU in HU. clear EU. rewrite H. exact HU.
  - rewrite Hg, Hl. split; [exact Hk|]. split; [exact Hr|reflexivity].
Qed.

Lemma ServeHTTP_store now rt req (w : World Value) :
  ms (ServeHTTP float64 formatValue now rt req w).1.1 = ms w ∨
  ∃ r, isShutdown r = false ∧
       ms (ServeHTTP float64 formatValue now rt req w).1.1
       = (process now true r (ms w)).1.
Proof.
  pose proof (ServeHTTP_cases now rt req w) as H.
  remember (ServeHTTP float64 formatValue now rt req w) as res eqn:E. clear E.
  destruct H as [(U & resp & EU & H) | (_ & _ & H)]; [|exact H].
  left. clear EU. rewrite H. reflexivity.
Qed.

(** ** The life cycle *)

Local Arguments ServeHTTP : simpl never.
Local Arguments process : simpl never.
Local Arguments Shutdown : simpl never.

Abbreviation step := (Main.step float64 formatValue).
Abbreviation run := (Main.run float64 formatValue).
Abbreviation Step := (Main.Step float64 formatValue).
Abbreviation start := (Main.start float64).

Lemma step_Step l (p p' : Process Value) : step l p = Some p' → Step l p p'.
Proof.
  unfold Main.step. destruct (alive p) eqn:Ha; [|discriminate]. simpl.
  destruct l as [[e|]| | |[|]| |r|i now rt|now ok|err| |now ok|];
    destruct (mainPc p) eqn:Hm; try discriminate;
    try (destruct (handlerPc p) eqn:Hh; try discriminate);
    try (destruct (listening p) eqn:Hl; try discriminate);
    try (destruct (connections p !! i) as [r|] eqn:Hc; try discriminate);
    intros [= <-];
    first [ by constructor
          | by (apply StepKill; auto)
          | by (apply StepDrop; auto) ].
Qed.

Lemma process_invariant (P : Process Value → Prop) :
  (∀ l p p', P p → Step l p p' → P p') →
  ∀ ls p p', P p → run ls p = Some p' → P p'.
Proof.
  intros HP. induction ls as [|l ls IH]; intros p p' Hp; simpl.
  - by intros [= <-].
  - destruct (step l p) as [q|] eqn:Hs; [|discriminate]. simpl.
    apply IH. eapply HP; [done|]. by apply step_Step.
Qed.

(** *** Traces *)

Lemma after_respond mk (tr : list (Event Value)) e :
  isRespond e → after mk tr → after mk (tr ++ [e]).
Proof.
  intros He. revert tr. induction mk as [|m mk IH]; intros tr; simpl.
  - intros H. apply Forall_app. split; [done|]. by apply Forall_cons.
  - intros (t & rest & -> & Ht & Hrest).
    exists t, (rest ++ [e]). split; [by rewrite <- !app_assoc|]. split; [done|].
    by apply IH.
Qed.

Lemma after_marker mk (tr m : list (Event Value)) :
  after mk tr → after (mk ++ [m]) (tr ++ m).
Proof.
  revert tr. induction mk as [|m' mk IH]; intros tr; simpl.
  - intros H. exists tr, []. by rewrite app_nil_r.
  - intros (t & rest & -> & Ht & Hrest).
    exists t, (rest ++ m). split; [by rewrite <- !app_assoc|]. split; [done|].
    by apply IH.
Qed.

Lemma Closing_respond mk (tr : list (Event Value)) e :
  isRespond e → Closing mk tr → Closing mk (tr ++ [e]).
Proof.
  intros He (t0 & t1 & rest & -> & H).
  exists t0, t1, (rest ++ [e]). split; [by rewrite <- !app_assoc|].
  by apply after_respond.
Qed.

Lemma Closing_marker mk (tr m : list (Event Value)) :
  Closing mk tr → Closing (mk ++ [m]) (tr ++ m).
Proof.
  intros (t0 & t1 & rest & -> & H).
  exists t0, t1, (rest ++ m). split; [by rewrite <- !app_assoc|].
  by apply after_marker.
Qed.

Lemma Closing_start (tr : list (Event Value)) :
  (∃ t0 t1, tr = t0 ++ signalEvents ++ t1) → Closing [] (tr ++ [EvClose]).
Proof.
  intros (t0 & t1 & ->). exists t0, t1, []. split; [|by constructor].
  by rewrite <- !app_assoc.
Qed.

(** *** The store under the life cycle *)

Lemma Flushed_process err now ok r (s : DiskMetricStore Value) :
  Flushed err s → Flushed err (process now ok r s).1.
Proof. intros H. rewrite process_stopped; [done|]. apply H. Qed.

Lemma Shutdown_flushes now ok (s : DiskMetricStore Value) :
  stopped s = false → Flushed (Shutdown now ok s).2 (Shutdown now ok s).1.
Proof.
  intros Hrun. unfold Shutdown, Storage.process. rewrite Hrun.
  unfold Flushed, persistenceEnabled.
  destruct (bool_decide (file s = "")) eqn:Hf; simpl.
  - rewrite Hf. done.
  - unfold persist. destruct ok; simpl; rewrite Hf; simpl.
    + split; [done|]. split; [|done]. intros _. by eexists _, _.
    + split; [done|]. split; [|done]. intros _. by eexists _, _.
Qed.

Lemma Shutdown_result now ok (s : DiskMetricStore Value) :
  stopped s = false →
  (Shutdown now ok s).2 =
    if persistenceEnabled s && negb ok then Some ErrPersist else None.
Proof.
  intros Hrun. unfold Shutdown, Storage.process. rewrite Hrun.
  destruct (persistenceEnabled s); [|done]. by destruct ok.
Qed.

(** *** What every reachable state satisfies *)

Section Run.
Context (actual : gmap string FlagValue) (onDisk : DiskFile Value) (t0 : Z).

Definition fatalEvents (e : string) : list (Event Value) :=
  [EvListen (stringOf addr actual) false; EvLog e; EvExit 1].

Definition shutdownPath (e : string) (err : option Error)
    : list (list (Event Value)) :=
  [stoppedEvents e; [EvSleep Second]; shutdownEvents err].

Record Inv (p : Process Value) : Prop := {
  inv_kinds : kindsKept (globals (world p));
  inv_registry : registryKept (globals (world p));
  inv_flags : flags p = actual;
  inv_together : together (mainPc p) (handlerPc p) (listening p) = true;
  inv_listen : mainPc p = AtListen → p = start actual onDisk t0;
  inv_running : alive p = true → mainPc p ≠ AtReturn →
                stopped (ms (world p)) = false;
  inv_signal : handlerPc p = AtClose →
               ∃ tr0 tr1, trace p = tr0 ++ signalEvents ++ tr1;
  inv_serve : mainPc p = AtServe → handlerPc p = Returned → Closing [] (trace p);
  inv_sleep : mainPc p = AtSleep → ∃ e, Closing [stoppedEvents e] (trace p);
  inv_shutdown : mainPc p = AtShutdown →
                 ∃ e, Closing [stoppedEvents e; [EvSleep Second]] (trace p);
  inv_return : mainPc p = AtReturn →
               ∃ e err, Closing (shutdownPath e err) (trace p) ∧
                        Flushed err (ms (world p));
  inv_exit : ∀ c, mainPc p = Exited c →
    (c = 1%Z ∧ ∃ e, p = mainTo (Exited 1) (fatalEvents e) (start actual onDisk t0)) ∨
    (c = 0%Z ∧ ∃ e err tr, trace p = tr ++ [EvExit 0] ∧
                           Closing (shutdownPath e err) tr ∧
                           Flushed err (ms (world p)));
}.

Lemma Inv_start : Inv (start actual onDisk t0).
Proof.
  split; done.
Qed.

Ltac pcs :=
  cbn [mainPc handlerPc listening world trace flags connections
       mainTo handlerTo withListener withConnections withWorld
       globals ms alive];
  rewrite ?app_nil_r.

Ltac easyfield :=
  first
  [ match goal with H : ?G |- ?G => exact H end
  | match goal with |- ?x = ?x => exact eq_refl end
  | match goal with |- together _ _ _ = true => exact eq_refl end
  | solve [intros [=]]
  | solve [intros ? [=]] ].

Lemma together_early m h o :
  together m h o = true → m = AtListen ∨ m = AtGo → h = NotStarted.
Proof. intros H [-> | ->]; by destruct h, o. Qed.

Lemma together_listen h o :
  together AtListen h o = true → o = false.
Proof. by destruct h, o. Qed.

Lemma together_go h o : together AtGo h o = true → o = true.
Proof. by destruct h, o. Qed.

Lemma together_handler m h o :
  together m h o = true → h = AtNotify ∨ h = AtReceive ∨ h = AtClose →
  m ≠ Killed → m = AtServe ∧ o = true.
Proof.
  intros H Hh Hk. destruct m; try (by destruct Hk);
    destruct Hh as [-> | [-> | ->]]; by destruct o.
Qed.


Lemma alive_not_killed (p : Process Value) : alive p = true → mainPc p ≠ Killed.
Proof. unfold alive. intros Ha Hk. rewrite Hk in Ha. discriminate Ha. Qed.

Lemma together_closed h :
  together AtServe h false = true → h = Returned.
Proof. by destruct h. Qed.

Lemma together_late m h o :
  together m h o = true → m = AtSleep ∨ m = AtShutdown ∨ m = AtReturn →
  h = Returned ∧ o = false.
Proof. intros H [-> | [-> | ->]]; by destruct h, o. Qed.

Lemma Inv_StepListen p :
  Inv p → mainPc p = AtListen →
  Inv (mainTo AtGo [EvListen (stringOf addr (flags p)) true] (withListener true p)).
Proof.
  intros [Hk Hr Hf Ht Hl Hrun Hsig Hserve Hsleep Hshut Hret Hexit] Hm.
  rewrite Hm in Ht.
  pose proof (together_early _ _ _ Ht (or_introl eq_refl)) as Hh.
  split; pcs; rewrite ?Hh; try easyfield.
  - intros _ _. apply Hrun; [by unfold alive; rewrite Hm|by rewrite Hm].
Qed.

Lemma Inv_StepFatal p e :
  Inv p → mainPc p = AtListen →
  Inv (mainTo (Exited 1)
         [EvListen (stringOf addr (flags p)) false; EvLog e; EvExit 1] p).
Proof.
  intros [Hk Hr Hf Ht Hl Hrun Hsig Hserve Hsleep Hshut Hret Hexit] Hm.
  rewrite Hm in Ht.
  pose proof (together_early _ _ _ Ht (or_introl eq_refl)) as Hh.
  pose proof (together_listen _ _ Ht) as Ho.
  split; pcs; rewrite ?Hh, ?Ho; try easyfield.
  - intros c [= <-]. left. split; [done|]. exists e.
    rewrite Hf. unfold fatalEvents. by rewrite <- (Hl Hm).
Qed.

Lemma Inv_StepGo p :
  Inv p → mainPc p = AtGo →
  Inv (handlerTo AtNotify [] (mainTo AtServe [] p)).
Proof.
  intros [Hk Hr Hf Ht Hl Hrun Hsig Hserve Hsleep Hshut Hret Hexit] Hm.
  rewrite Hm in Ht.
  pose proof (together_go _ _ Ht) as Ho.
  split; pcs; rewrite ?Ho; try easyfield.
  - intros _ _. apply Hrun; [by unfold alive; rewrite Hm|by rewrite Hm].
Qed.

Lemma Inv_handler p h evs :
  Inv p → alive p = true →
  handlerPc p = AtNotify ∨ handlerPc p = AtReceive →
  h = AtReceive ∨ h = AtClose →
  (h = AtClose → evs = signalEvents) →
  Inv (handlerTo h evs p).
Proof.
  intros [Hk Hr Hf Ht Hl Hrun Hsig Hserve Hsleep Hshut Hret Hexit] Ha Hh Hh' Hev.
  destruct (together_handler _ _ _ Ht) as [Hm Ho].
  { destruct Hh as [-> | ->]; auto. }
  { by apply alive_not_killed. }
  split; pcs; rewrite ?Hm, ?Ho; try easyfield.
  - by destruct Hh' as [-> | ->].
  - intros _ _. apply Hrun; [done|by rewrite Hm].
  - intros ->. rewrite (Hev eq_refl). by exists (trace p), [].
  - intros _ ->. by destruct Hh'.
Qed.

Lemma Inv_StepClose p :
  Inv p → alive p = true → handlerPc p = AtClose →
  Inv (handlerTo Returned [EvClose] (withListener false p)).
Proof.
  intros [Hk Hr Hf Ht Hl Hrun Hsig Hserve Hsleep Hshut Hret Hexit] Ha Hh.
  destruct (together_handler _ _ _ Ht) as [Hm Ho];
    [auto|by apply alive_not_killed|].
  split; pcs; rewrite ?Hm; try easyfield.
  - intros _ _. apply Hrun; [done|by rewrite Hm].
  - intros _ _. by apply Closing_start, Hsig.
Qed.

Lemma Inv_StepKill p :
  Inv p → alive p = true → handlerPc p = NotStarted ∨ handlerPc p = AtNotify →
  Inv (mainTo Killed [EvKilled] p).
Proof.
  intros [Hk Hr Hf Ht Hl Hrun Hsig Hserve Hsleep Hshut Hret Hexit] Ha Hh.
  split; pcs; try easyfield.
  - destruct Hh as [-> | ->]; by destruct (listening p).
  - intros H. destruct Hh as [Hh | Hh]; rewrite Hh in H; discriminate H.
Qed.

Lemma signal_later (tr : list (Event Value)) e :
  (∃ tr0 tr1, tr = tr0 ++ signalEvents ++ tr1) →
  ∃ tr0 tr1, tr ++ [e] = tr0 ++ signalEvents ++ tr1.
Proof.
  intros (a & b & ->). exists a, (b ++ [e]). by rewrite <- !app_assoc.
Qed.

Lemma Inv_StepAccept p r :
  Inv p → mainPc p = AtServe → listening p = true →
  Inv (withWorld (world p) [EvAccept r] (withConnections (connections p ++ [r]) p)).
Proof.
  intros [Hk Hr Hf Ht Hl Hrun Hsig Hserve Hsleep Hshut Hret Hexit] Hm Ho.
  split; pcs; rewrite ?Hm, ?Ho; try easyfield.
  - by rewrite Hm, Ho in Ht.
  - intros _ _. apply Hrun; [by unfold alive; rewrite Hm|by rewrite Hm].
  - intros Hh. by apply signal_later, Hsig.
  - intros _ Hh. rewrite Hm, Hh, Ho in Ht. discriminate Ht.
Qed.

Lemma Inv_StepHandle p i now rt r :
  Inv p → alive p = true → connections p !! i = Some r →
  Inv (withWorld (ServeHTTP float64 formatValue now rt r (world p)).1.1
         ((EvLog <$> (ServeHTTP float64 formatValue now rt r (world p)).2)
            ++ [EvRespond r (ServeHTTP float64 formatValue now rt r (world p)).1.2])
         (withConnections (delete i (connections p)) p)).
Proof.
  intros [Hk Hr Hf Ht Hl Hrun Hsig Hserve Hsleep Hshut Hret Hexit] Ha Hc.
  destruct (ServeHTTP_keeps now rt r (world p) Hk Hr) as (Hk' & Hr' & Hlog).
  pose proof (ServeHTTP_store now rt r (world p)) as Hst.
  remember (ServeHTTP float64 formatValue now rt r (world p)) as res eqn:E. clear E.
  rewrite Hlog. cbn [fmap list_fmap app].
  assert (Hresp : isRespond (EvRespond r res.1.2)) by (by eexists _, _).
  split; pcs; try easyfield.
  - intros Hm. rewrite (Hl Hm) in Hc. discriminate Hc.
  - intros _ Hm. destruct Hst as [-> | (q & Hq & ->)]; [by apply Hrun|].
    apply process_keeps_running; [by apply Hrun|done].
  - intros Hh. by apply signal_later, Hsig.
  - intros Hm Hh. by apply Closing_respond, Hserve.
  - intros Hm. destruct (Hsleep Hm) as (e & He). exists e.
    by apply Closing_respond.
  - intros Hm. destruct (Hshut Hm) as (e & He). exists e.
    by apply Closing_respond.
  - intros Hm. destruct (Hret Hm) as (e & err & Hcl & Hfl). exists e, err.
    split; [by apply Closing_respond|].
    destruct Hst as [-> | (q & Hq & ->)]; [done|]. by apply Flushed_process.
  - intros c Hm. unfold alive in Ha. rewrite Hm in Ha. discriminate Ha.
Qed.

Lemma Inv_StepTimer p now ok :
  Inv p → alive p = true →
  Inv (withWorld {| globals := globals (world p);
                    ms := (process now ok ReqPersist (ms (world p))).1 |} [] p).
Proof.
  intros [Hk Hr Hf Ht Hl Hrun Hsig Hserve Hsleep Hshut Hret Hexit] Ha.
  split; pcs; try easyfield.
  - intros Hm. rewrite (Hl Hm). rewrite process_persist_idle by reflexivity.
    reflexivity.
  - intros _ Hm. apply process_keeps_running; [by apply Hrun|done].
  - intros Hm. destruct (Hret Hm) as (e & err & Hcl & Hfl). exists e, err.
    split; [done|]. by apply Flushed_process.
  - intros c Hm. unfold alive in Ha. rewrite Hm in Ha. discriminate Ha.
Qed.

Lemma Inv_StepServeReturn p e :
  Inv p → mainPc p = AtServe → listening p = false →
  Inv (mainTo AtSleep (stoppedEvents e) p).
Proof.
  intros [Hk Hr Hf Ht Hl Hrun Hsig Hserve Hsleep Hshut Hret Hexit] Hm Ho.
  rewrite Hm, Ho in Ht. pose proof (together_closed _ Ht) as Hh.
  split; pcs; rewrite ?Hh, ?Ho; try easyfield.
  - intros _ _. apply Hrun; [by unfold alive; rewrite Hm|by rewrite Hm].
  - intros _. exists e. by apply (Closing_marker []), Hserve.
Qed.

Lemma Inv_StepSleep p :
  Inv p → mainPc p = AtSleep → Inv (mainTo AtShutdown [EvSleep Second] p).
Proof.
  intros [Hk Hr Hf Ht Hl Hrun Hsig Hserve Hsleep Hshut Hret Hexit] Hm.
  destruct (together_late _ _ _ Ht) as [Hh Ho]; [auto|].
  split; pcs; rewrite ?Hh, ?Ho; try easyfield.
  - intros _ _. apply Hrun; [by unfold alive; rewrite Hm|by rewrite Hm].
  - intros _. destruct (Hsleep Hm) as (e & He). exists e.
    by apply (Closing_marker [stoppedEvents e]).
Qed.

Lemma Inv_StepShutdown p now ok :
  Inv p → mainPc p = AtShutdown →
  Inv (mainTo AtReturn []
         (withWorld {| globals := globals (world p);
                       ms := (Shutdown now ok (ms (world p))).1 |}
            (shutdownEvents (Shutdown now ok (ms (world p))).2) p)).
Proof.
  intros [Hk Hr Hf Ht Hl Hrun Hsig Hserve Hsleep Hshut Hret Hexit] Hm.
  destruct (together_late _ _ _ Ht) as [Hh Ho]; [auto|].
  assert (Hst : stopped (ms (world p)) = false).
  { apply Hrun; [by unfold alive; rewrite Hm|by rewrite Hm]. }
  split; pcs; rewrite ?Hh, ?Ho; try easyfield.
  - intros _ H. by destruct H.
  - intros _. destruct (Hshut Hm) as (e & He).
    exists e, (snd (Shutdown now ok (ms (world p)))).
    split; [|by apply Shutdown_flushes].
    by apply (Closing_marker [stoppedEvents e; [EvSleep Second]]).
Qed.

Lemma Inv_StepReturn p :
  Inv p → mainPc p = AtReturn → Inv (mainTo (Exited 0) [EvExit 0] p).
Proof.
  intros [Hk Hr Hf Ht Hl Hrun Hsig Hserve Hsleep Hshut Hret Hexit] Hm.
  destruct (together_late _ _ _ Ht) as [Hh Ho]; [auto|].
  split; pcs; rewrite ?Hh, ?Ho; try easyfield.
  - intros c [= <-]. right. split; [done|].
    destruct (Hret Hm) as (e & err & Hcl & Hfl). by exists e, err, (trace p).
Qed.

Lemma Inv_step l p p' : Inv p → Step l p p' → Inv p'.
Proof.
  intros HI HS.
  destruct HS as [p Hm|p e Hm|p Hm|p Ha Hh|p parked Ha Hh|p Ha Hh|p parked Ha Hh
                 |p Ha Hh|p r Hm Hli|p i now rt r Ha Hc|p now ok Ha
                 |p e Hm Hli|p Hm|p now ok Hm|p Hm].
  - by apply Inv_StepListen.
  - by apply Inv_StepFatal.
  - by apply Inv_StepGo.
  - apply Inv_handler; auto. intros [=].
  - by apply Inv_StepKill.
  - apply Inv_handler; auto.
  - exact HI.
  - by apply Inv_StepClose.
  - by apply Inv_StepAccept.
  - by apply Inv_StepHandle.
  - by apply Inv_StepTimer.
  - by apply Inv_StepServeReturn.
  - by apply Inv_StepSleep.
  - by apply Inv_StepShutdown.
  - by apply Inv_StepReturn.
Qed.

Lemma Inv_run ls p : run ls (start actual onDisk t0) = Some p → Inv p.
Proof. apply (process_invariant Inv Inv_step), Inv_start. Qed.



Lemma step_sleep (p : Process Value) :
  mainPc p = AtSleep →
  step LSleep p = Some (mainTo AtShutdown [EvSleep Second] p).
Proof.
  intros Hm. unfold Main.step, alive. rewrite Hm. by destruct (handlerPc p).
Qed.

Lemma step_shutdown (p : Process Value) now ok :
  mainPc p = AtShutdown →
  step (LShutdown now ok) p =
    Some (mainTo AtReturn []
            (withWorld {| globals := globals (world p);
                          ms := (Shutdown now ok (ms (world p))).1 |}
               (shutdownEvents (Shutdown now ok (ms (world p))).2) p)).
Proof.
  intros Hm. unfold Main.step, alive. rewrite Hm. by destruct (handlerPc p).
Qed.

Lemma step_return (p : Process Value) :
  mainPc p = AtReturn →
  step LReturn p = Some (mainTo (Exited 0) [EvExit 0] p).
Proof.
  intros Hm. unfold Main.step, alive. rewrite Hm. by destruct (handlerPc p).
Qed.

Lemma step_exited l (p : Process Value) c : mainPc p = Exited c → step l p = None.
Proof. intros Hm. unfold Main.step, alive. by rewrite Hm. Qed.

Lemma run_shutdown_return (p : Process Value) now ok :
  mainPc p = AtShutdown →
  ∃ q, run [LShutdown now ok; LReturn] p = Some q ∧
       mainPc q = Exited 0 ∧
       trace q = trace p ++ shutdownEvents (Shutdown now ok (ms (world p))).2
                   ++ [EvExit 0].
Proof.
  intros Hm. eexists. split.
  - cbn [Main.run]. rewrite (step_shutdown p now ok Hm). cbn [mbind option_bind].
    rewrite step_return by reflexivity. reflexivity.
  - split; [reflexivity|]. pcs. by rewrite <- app_assoc.
Qed.



(** *** Before the handler has registered *)







(** C6.  When main is about to call Shutdown, the call and the return of
    main are enabled whatever Shutdown returns, and they end the process
    with exit code 0.  A failed final write gives the error [ErrPersist],
    which is logged; nothing else happens between the return of Shutdown
    and the exit. *)
Theorem shutdown_error_does_not_block ls p now ok :
  run ls (start actual onDisk t0) = Some p → mainPc p = AtShutdown →
  let err := if persistenceEnabled (ms (world p)) && negb ok
             then Some ErrPersist else None in
  ∃ q, run [LShutdown now ok; LReturn] p = Some q ∧
       mainPc q = Exited 0 ∧
       trace q = trace p ++ shutdownEvents err ++ [EvExit 0] ∧
       (∀ e, err = Some e →
          shutdownEvents (Value:=Value) err =
            [EvShutdown (Some e);
             EvLog ("Problem shutting down metric storage: " +:+ errorText e)]).
Proof.
  intros Hrun Hm err. pose proof (Inv_run ls p Hrun) as HI.
  destruct (run_shutdown_return p now ok Hm) as (q & Hq & Hmq & Htr).
  exists q. split; [done|]. split; [done|].
  rewrite Shutdown_result in Htr.
  - split; [done|]. by intros e ->.
  - apply (inv_running p HI); [by unfold alive; rewrite Hm|by rewrite Hm].
Qed.

(** C9.  If [net.Listen] fails, [log.Fatal] logs the error and ends the
    process with exit code 1 in the same step, and nothing can follow.
    Every run that ends with exit code 1 is this one: its trace is the
    start-up line, the failed Listen, the logged error and the exit, with no
    Shutdown event, and the store is exactly as it was created, neither
    shut down nor written. *)
Theorem listen_failure_skips_shutdown :
  (∀ e, step (LListen (Some e)) (start actual onDisk t0)
          = Some (mainTo (Exited 1) (fatalEvents e) (start actual onDisk t0))) ∧
  (∀ ls p, run ls (start actual onDisk t0) = Some p → mainPc p = Exited 1 →
     (∀ l, step l p = None) ∧
     ∃ e, trace p = [EvLog ("Listening on " +:+ stringOf addr actual +:+ ".");
                     EvListen (stringOf addr actual) false; EvLog e; EvExit 1] ∧
          (∀ err, EvShutdown err ∉ trace p) ∧
          ms (world p) = NewDiskMetricStore (stringOf persistenceFile actual)
                           (durationOf persistenceDuration actual) onDisk t0 ∧
          stopped (ms (world p)) = false ∧
          writes (ms (world p)) = []).
Proof.
  split; [done|].
  intros ls p Hrun Hm. pose proof (Inv_run ls p Hrun) as HI.
  split; [intros l; by apply (step_exited l p 1%Z)|].
  destruct (inv_exit p HI 1%Z Hm) as [(_ & e & ->)|[? _]]; [|done].
  exists e. split; [done|]. split; [|done].
  intros err Hin. cbn in Hin.
  repeat (apply elem_of_cons in Hin as [Hin|Hin]; [discriminate Hin|]).
  by apply elem_of_nil in Hin.
Qed.

(** *** The scrape *)

Lemma ServeHTTP_metrics now rt b (w : World Value) :
  ServeHTTP float64 formatValue now rt
    {| method := "GET"; path := "/metrics"; body := b |} w
  = metricsHandler float64 formatValue rt w.
Proof.
  rewrite ServeHTTP_canonical by reflexivity.
  unfold servePat. rewrite metricsHandler_unfold.
  generalize (updateInternalMetrics float64 rt (globals w)). intros U.
  cbn [path method]. rewrite dispatch_get_metrics. reflexivity.
Qed.

Lemma registered_internal :
  registry (registerInternalMetrics float64 initialGlobals) =
    (λ im, {| reg_name := name im; reg_help := help im; reg_metric := metric im |})
      <$> internalMetrics float64.
Proof. vm_compute. reflexivity. Qed.

(** C10.  In every reachable state a GET on [/metrics] first reads the
    runtime and sets the seven internal metrics from it, then renders.  The
    exposition therefore starts with the seven [instance_*] families, each
    with the value just read (six gauges and the counter
    [instance_gc_count]), followed by what the store hands over, which for a
    running store is the merge of the pushed groups; the handler logs
    nothing and leaves the store alone. *)
Theorem scrape_refreshes_internal_metrics ls p now rt b :
  run ls (start actual onDisk t0) = Some p →
  ∃ g',
    ServeHTTP float64 formatValue now rt
      {| method := "GET"; path := "/metrics"; body := b |} (world p)
    = ({| globals := g'; ms := ms (world p) |},
       Exposition
         (exposition formatValue
            ([ single "instance_goroutine_count"
                 "The number of goroutines that currently exist." Gauge
                 (float64 (NumGoroutine rt));
               single "instance_allocated_bytes"
                 "Bytes allocated and still in use." Gauge
                 (float64 (Alloc (ReadMemStats rt)));
               single "instance_total_allocated_bytes"
                 "Bytes allocated (even if freed)." Gauge
                 (float64 (TotalAlloc (ReadMemStats rt)));
               single "instance_heap_allocated_bytes"
                 "Heap bytes allocated and still in use." Gauge
                 (float64 (HeapAlloc (ReadMemStats rt)));
               single "instance_gc_high_watermark_bytes"
                 "Next run in HeapAlloc time (bytes)." Gauge
                 (float64 (NextGC (ReadMemStats rt)));
               single "instance_gc_total_pause_ns"
                 "Total GC paise time." Gauge
                 (float64 (PauseTotalNs (ReadMemStats rt)));
               single "instance_gc_count" "GC count." Counter
                 (float64 (NumGC (ReadMemStats rt))) ]
             ++ GetMetricFamilies (ms (world p)))),
       []) ∧
    memStats g' = ReadMemStats rt ∧
    (stopped (ms (world p)) = false →
       GetMetricFamilies (ms (world p)) =
         (merge (GetAllGroups (table (ms (world p))))).1).
Proof.
  intros Hrun. pose proof (Inv_run ls p Hrun) as HI.
  pose proof (inv_kinds p HI) as Hk. pose proof (inv_registry p HI) as Hr.
  eexists. split; [|split].
  - rewrite ServeHTTP_metrics, metricsHandler_unfold.
    rewrite (update_refreshes rt (globals (world p)) Hk).
    cbn [fst snd]. unfold DefaultHandler, gather. cbn [registry].
    rewrite Hr, registered_internal.
    reflexivity.
  - reflexivity.
  - intros Hs. unfold GetMetricFamilies, Storage.process. by rewrite Hs.
Qed.

(** *** The flags *)

Lemma setFlag_recognized name v (a : gmap string FlagValue) :
  is_Some (setFlag name v a) ↔
    (∃ x, v = StringValue x ∧ (name = "addr" ∨ name = "persistence.file")) ∨
    (∃ d, v = DurationValue d ∧ name = "persistence.duration").
Proof.
  unfold setFlag, lookupFlag, CommandLine.
  destruct (decide (name = "addr")) as [->|H1];
    [|destruct (decide (name = "persistence.file")) as [->|H2];
      [|destruct (decide (name = "persistence.duration")) as [->|H3]]].
  - destruct v as [x|d]; cbn; split.
    + intros _. left. eauto.
    + intros _. eauto.
    + intros [? [=]].
    + intros [(? & [=] & _)|(? & _ & [=])].
  - destruct v as [x|d]; cbn; split.
    + intros _. left. eauto.
    + intros _. eauto.
    + intros [? [=]].
    + intros [(? & [=] & _)|(? & _ & [=])].
  - destruct v as [x|d]; cbn; split.
    + intros [? [=]].
    + intros [(? & _ & [[=]|[=]])|(? & [=] & _)].
    + intros _. right. eauto.
    + intros _. eauto.
  - cbn [find f_name addr persistenceFile persistenceDuration].
    rewrite !bool_decide_eq_false_2 by congruence.
    split; [intros [? [=]]|].
    intros [(? & _ & [?|?])|(? & _ & ?)]; congruence.
Qed.

(** Without a file the store neither schedules nor writes, and the file
    system is left alone. *)
Definition memoryOnly (p : Process Value) : Prop :=
  file (ms (world p)) = "" ∧ writes (ms (world p)) = [] ∧
  scheduled (ms (world p)) = None ∧ disk (ms (world p)) = onDisk.

Lemma memoryOnly_process now ok r (s : DiskMetricStore Value) :
  file s = "" ∧ writes s = [] ∧ scheduled s = None ∧ disk s = onDisk →
  file (process now ok r s).1 = "" ∧ writes (process now ok r s).1 = [] ∧
  scheduled (process now ok r s).1 = None ∧ disk (process now ok r s).1 = onDisk.
Proof.
  intros (Hf & Hw & Hs & Hd).
  destruct (process_memory_only now ok r s Hf Hw Hs) as (? & ? & ? & ->). done.
Qed.

Lemma Shutdown_process now ok (s : DiskMetricStore Value) :
  (Shutdown now ok s).1 = (process now ok ReqShutdown s).1.
Proof. unfold Shutdown. by destruct (process now ok ReqShutdown s) as [? []]. Qed.

Lemma memoryOnly_step l p p' : memoryOnly p → Step l p p' → memoryOnly p'.
Proof.
  intros HM HS. unfold memoryOnly in *.
  destruct HS as [p Hm|p e Hm|p Hm|p Ha Hh|p parked Ha Hh|p Ha Hh|p parked Ha Hh
                 |p Ha Hh|p r Hm Hli|p i now rt r Ha Hc|p now ok Ha
                 |p e Hm Hli|p Hm|p now ok Hm|p Hm];
    pcs; try exact HM.
  - destruct (ServeHTTP_store now rt r (world p)) as [-> | (q & _ & ->)];
      [done|by apply memoryOnly_process].
  - by apply memoryOnly_process.
  - rewrite Shutdown_process. by apply memoryOnly_process.
Qed.

(** C7.  The program defines three flags and no other: the listen address,
    the persistence file and the minimum interval between writes; setting
    any other name, or a value of the wrong kind, is an error.  The process
    listens on the address, and the store is created from the file and the
    interval.  With an empty file the store starts empty whatever is on
    disk, and in every run it never writes, never schedules a write and
    leaves the disk as it found it. *)
Theorem flags_configure ls p :
  run ls (start actual onDisk t0) = Some p →
  f_name <$> CommandLine = ["addr"; "persistence.file"; "persistence.duration"] ∧
  (∀ name v (a : gmap string FlagValue),
     is_Some (setFlag name v a) ↔
       (∃ x, v = StringValue x ∧ (name = "addr" ∨ name = "persistence.file")) ∨
       (∃ d, v = DurationValue d ∧ name = "persistence.duration")) ∧
  step (LListen None) (start actual onDisk t0) =
    Some (mainTo AtGo [EvListen (stringOf addr actual) true]
            (withListener true (start actual onDisk t0))) ∧
  file (ms (world p)) = stringOf persistenceFile actual ∧
  interval (ms (world p)) = durationOf persistenceDuration actual ∧
  (stringOf persistenceFile actual = "" →
     groups (table (ms (world (start actual onDisk t0)))) = ∅ ∧
     writes (ms (world p)) = [] ∧
     scheduled (ms (world p)) = None ∧
     disk (ms (world p)) = onDisk).
Proof.
  intros Hrun.
  split; [reflexivity|]. split; [apply setFlag_recognized|]. split; [reflexivity|].
  assert (Hcfg : file (ms (world p)) = stringOf persistenceFile actual ∧
                 interval (ms (world p)) = durationOf persistenceDuration actual).
  { revert Hrun. apply (process_invariant
      (λ p, file (ms (world p)) = stringOf persistenceFile actual ∧
            interval (ms (world p)) = durationOf persistenceDuration actual));
      [|done].
    clear. intros l p p' [Hf Hi] HS.
    assert (Hp : ∀ now ok r,
      file (process now ok r (ms (world p))).1 = stringOf persistenceFile actual ∧
      interval (process now ok r (ms (world p))).1
        = durationOf persistenceDuration actual).
    { intros now ok r. rewrite process_interval. split; [|done].
      rewrite <- Hf. apply process_file. }
    destruct HS as [p Hm|p e Hm|p Hm|p Ha Hh|p parked Ha Hh|p Ha Hh|p parked Ha Hh
                 |p Ha Hh|p r Hm Hli|p i now rt r Ha Hc|p now ok Ha
                 |p e Hm Hli|p Hm|p now ok Hm|p Hm];
      pcs; try done.
    - destruct (ServeHTTP_store now rt r (world p)) as [-> | (q & _ & ->)]; done.
    - rewrite Shutdown_process. done. }
  destruct Hcfg as [Hf Hi]. split; [done|]. split; [done|].
  intros He. split.
  - cbn. by rewrite He.
  - revert Hrun. apply (process_invariant memoryOnly memoryOnly_step).
    unfold memoryOnly. cbn. by rewrite He.
Qed.

End Run.


End WithValue.
End MainFacts.

(** * Properties of the serializer *)

Module SerializerFacts.
Import Storage Serializer StorageFacts.

Lemma precedes_app_l {A} (x y : A) l l' : precedes x y l → precedes x y (l ++ l').
Proof.
  intros (l1 & l2 & l3 & ->). exists l1, l2, (l3 ++ l').
  rewrite <- app_assoc. f_equal. simpl. f_equal. by rewrite <- app_assoc.
Qed.

Lemma precedes_snoc {A} (x y : A) l : x ∈ l → precedes x y (l ++ [y]).
Proof.
  intros (l1 & l2 & ->)%list_elem_of_split. exists l1, l2, [].
  by rewrite <- app_assoc.
Qed.

Lemma precedes_snoc_inv {A} (x y z : A) l :
  precedes x y (l ++ [z]) → precedes x y l ∨ (y = z ∧ x ∈ l).
Proof.
  intros (l1 & l2 & l3 & H).
  destruct l3 as [|w l3 _] using rev_ind.
  - right.
    assert (E : l1 ++ x :: l2 ++ [y] = (l1 ++ x :: l2) ++ [y])
      by (by rewrite <- !app_assoc, <- !app_comm_cons).
    rewrite E in H. apply app_inj_tail in H as [-> ->].
    split; [done|]. rewrite elem_of_app, elem_of_cons. auto.
  - left. exists l1, l2, l3.
    assert (E : l1 ++ x :: l2 ++ y :: l3 ++ [w] = (l1 ++ x :: l2 ++ y :: l3) ++ [w])
      by (by rewrite <- !app_assoc, <- !app_comm_cons, <- !app_assoc).
    rewrite E in H. by apply app_inj_tail in H as [-> _].
Qed.

Lemma precedes_elem {A} (x y : A) l : precedes x y l → x ∈ l ∧ y ∈ l.
Proof.
  intros (l1 & l2 & l3 & ->). split.
  - apply elem_of_app. right. by left.
  - apply elem_of_app. right. right. apply elem_of_app. right. by left.
Qed.

Section WithValue.
Context {Value : Type} (s0 : DiskMetricStore Value).

Implicit Types (s : State Value) (a : Applied Value).

Lemma legal_snoc lin : ∀ st st' a,
  legal st lin st' →
  a_resp a = (process (a_now a) (a_diskOk a) (a_req a) st').2 →
  legal st (lin ++ [a]) (process (a_now a) (a_diskOk a) (a_req a) st').1.
Proof.
  induction lin as [|b lin IH]; intros st st' a; simpl.
  - intros -> H. done.
  - intros [Hb Hl] Ha. split; [done|]. by apply IH.
Qed.

(** What holds along every execution. *)
Record Core s : Prop := {
  c_legal : legal s0 (applied s) (store s);
  c_ret : ∀ id resp, Return id resp ∈ history s →
          ∃ a, a ∈ applied s ∧ a_id a = id ∧ a_resp a = resp;
  c_inv : ∀ a, a ∈ applied s → Invoke (a_id a) (a_req a) ∈ history s;
  c_queue : ∀ id r, (id, r) ∈ queue s → Invoke id r ∈ history s;
  c_fresh : ∀ id r, Invoke id r ∈ history s → id < nextId s;
  c_uniq : ∀ id r r', Invoke id r ∈ history s → Invoke id r' ∈ history s → r = r';
  c_nodup : NoDup ((a_id <$> applied s) ++ (queue s).*1);
  c_rt : ∀ ida ra idb rb,
         precedes (Return ida ra) (Invoke idb rb) (history s) →
         idb ∈ a_id <$> applied s →
         precedes ida idb (a_id <$> applied s);
}.

Lemma Core_init : Core (init s0).
Proof.
  split; simpl; try done.
  - intros id resp H. by apply elem_of_nil in H.
  - intros a H. by apply elem_of_nil in H.
  - intros id r H. by apply elem_of_nil in H.
  - intros id r H. by apply elem_of_nil in H.
  - intros id r r' H. by apply elem_of_nil in H.
  - constructor.
  - intros ???? _ H. by apply elem_of_nil in H.
Qed.

Lemma applied_fresh s a : Core s → a ∈ applied s → a_id a < nextId s.
Proof. intros HC Ha. eapply c_fresh, c_inv; done. Qed.

Lemma Core_submit_running s r :
  Core s →
  Core {| store := store s; queue := queue s ++ [(nextId s, r)];
          nextId := S (nextId s);
          history := history s ++ [Invoke (nextId s) r];
          applied := applied s |}.
Proof.
  intros HC. pose proof HC as [H1 H2 H3 H4 H5 H8 H6 H7]. split; simpl.
  - done.
  - intros id resp [H|H]%elem_of_app; [auto|].
    apply elem_of_cons in H as [[=]|H]. by apply elem_of_nil in H.
  - intros a Ha. apply elem_of_app. left. auto.
  - intros id q [H|H]%elem_of_app; apply elem_of_app; [left; auto|right].
    apply elem_of_cons in H as [[= -> ->]|H]; [by left|by apply elem_of_nil in H].
  - intros id q [H|H]%elem_of_app; [specialize (H5 _ _ H); lia|].
    apply elem_of_cons in H as [[= -> ->]|H]; [lia|by apply elem_of_nil in H].
  - intros id q q' [H|H]%elem_of_app [H'|H']%elem_of_app.
    + by eapply H8.
    + apply elem_of_cons in H' as [[= -> ->]|H']; [|by apply elem_of_nil in H'].
      specialize (H5 _ _ H). lia.
    + apply elem_of_cons in H as [[= -> ->]|H]; [|by apply elem_of_nil in H].
      specialize (H5 _ _ H'). lia.
    + apply elem_of_cons in H as [[= -> ->]|H]; [|by apply elem_of_nil in H].
      apply elem_of_cons in H' as [[= ->]|H']; [done|by apply elem_of_nil in H'].
  - rewrite fmap_app, app_assoc. apply NoDup_app. split; [done|].
    split; [|apply NoDup_singleton].
    intros id Hid [E|H]%elem_of_cons; [|by apply elem_of_nil in H].
    simpl in E. subst id.
    apply elem_of_app in Hid as [Hid|Hid].
    + apply list_elem_of_fmap in Hid as (a & E & Ha).
      pose proof (applied_fresh s a HC Ha). lia.
    + apply list_elem_of_fmap in Hid as ([id q] & E & Hq). simpl in E.
      specialize (H5 _ _ (H4 _ _ Hq)). lia.
  - intros ida ra idb rb Hp Hb.
    apply precedes_snoc_inv in Hp as [Hp|[[= -> ->] _]]; [by eapply H7|].
    apply list_elem_of_fmap in Hb as (a & Hida & Ha).
    pose proof (applied_fresh s a HC Ha). lia.
Qed.

Lemma Core_owner s id r q now ok :
  Core s → queue s = (id, r) :: q →
  Core {| store := (process now ok r (store s)).1; queue := q;
          nextId := nextId s;
          history := history s ++ [Return id (process now ok r (store s)).2];
          applied := applied s ++
            [{| a_id := id; a_now := now; a_diskOk := ok; a_req := r;
                a_resp := (process now ok r (store s)).2 |}] |}.
Proof.
  intros HC Hq. pose proof HC as [H1 H2 H3 H4 H5 H8 H6 H7].
  assert (Hin : Invoke id r ∈ history s).
  { apply H4. rewrite Hq. by left. }
  split; simpl.
  - by apply (legal_snoc (applied s) s0 (store s)
                {| a_id := id; a_now := now; a_diskOk := ok; a_req := r;
                   a_resp := (process now ok r (store s)).2 |}).
  - intros id' resp [H|H]%elem_of_app.
    + destruct (H2 _ _ H) as (a & Ha & ? & ?). exists a.
      split; [|done]. apply elem_of_app. by left.
    + apply elem_of_cons in H as [[= -> ->]|H]; [|by apply elem_of_nil in H].
      eexists. split; [apply elem_of_app; right; by left|done].
  - intros a [Ha|Ha]%elem_of_app; apply elem_of_app; left; [auto|].
    apply elem_of_cons in Ha as [->|Ha]; [done|by apply elem_of_nil in Ha].
  - intros id' r' H. apply elem_of_app. left. apply H4. rewrite Hq. by right.
  - intros id' r' [H|H]%elem_of_app; [eauto|].
    apply elem_of_cons in H as [[=]|H]. by apply elem_of_nil in H.
  - intros id' q1 q2 [H|H]%elem_of_app [H'|H']%elem_of_app.
    + by eapply H8.
    + apply elem_of_cons in H' as [[=]|H']. by apply elem_of_nil in H'.
    + apply elem_of_cons in H as [[=]|H]. by apply elem_of_nil in H.
    + apply elem_of_cons in H as [[=]|H]. by apply elem_of_nil in H.
  - rewrite Hq in H6. rewrite fmap_app, <- app_assoc. exact H6.
  - intros ida ra idb rb Hp Hb.
    apply precedes_snoc_inv in Hp as [Hp|[[=] _]].
    rewrite fmap_app in *. apply elem_of_app in Hb as [Hb|Hb].
    + apply precedes_app_l. by eapply H7.
    + apply elem_of_cons in Hb as [->|Hb]; [|by apply elem_of_nil in Hb].
      apply precedes_snoc. apply precedes_elem in Hp as [Hr _].
      destruct (H2 _ _ Hr) as (a & Ha & <- & _). by apply list_elem_of_fmap_2.
Qed.

Lemma Core_submit_stopped s r :
  Core s → stopped (store s) = true →
  Core {| store := store s; queue := queue s; nextId := S (nextId s);
          history := history s ++
            [Invoke (nextId s) r; Return (nextId s) (process 0 true r (store s)).2];
          applied := applied s ++
            [{| a_id := nextId s; a_now := 0; a_diskOk := true; a_req := r;
                a_resp := (process 0 true r (store s)).2 |}] |}.
Proof.
  intros HC Hst. pose proof HC as [H1 H2 H3 H4 H5 H8 H6 H7].
  split; simpl.
  - pose proof (legal_snoc (applied s) s0 (store s)
                  {| a_id := nextId s; a_now := 0; a_diskOk := true; a_req := r;
                     a_resp := (process 0 true r (store s)).2 |} H1 eq_refl) as H.
    simpl in H. by rewrite (process_stopped 0 true r (store s) Hst) in H.
  - intros id' resp [H|H]%elem_of_app.
    + destruct (H2 _ _ H) as (a & Ha & ? & ?). exists a.
      split; [|done]. apply elem_of_app. by left.
    + apply elem_of_cons in H as [[=]|H].
      apply elem_of_cons in H as [[= -> ->]|H]; [|by apply elem_of_nil in H].
      eexists. split; [apply elem_of_app; right; by left|done].
  - intros a [Ha|Ha]%elem_of_app; apply elem_of_app; [left; auto|right].
    apply elem_of_cons in Ha as [->|Ha]; [by left|by apply elem_of_nil in Ha].
  - intros id' r' H. apply elem_of_app. left. by apply H4.
  - intros id' r' [H|H]%elem_of_app; [specialize (H5 _ _ H); lia|].
    apply elem_of_cons in H as [[= -> ->]|H]; [lia|].
    apply elem_of_cons in H as [[=]|H]. by apply elem_of_nil in H.
  - assert (Hnew : ∀ id q, Invoke id q ∈
              [Invoke (nextId s) r; Return (nextId s) (process 0 true r (store s)).2] →
              id = nextId s ∧ q = r).
    { intros id q H. apply elem_of_cons in H as [[= -> ->]|H]; [done|].
      apply elem_of_cons in H as [[=]|H]. by apply elem_of_nil in H. }
    intros id q q' [H|H]%elem_of_app [H'|H']%elem_of_app.
    + by eapply H8.
    + destruct (Hnew _ _ H') as [-> _]. specialize (H5 _ _ H). lia.
    + destruct (Hnew _ _ H) as [-> _]. specialize (H5 _ _ H'). lia.
    + destruct (Hnew _ _ H) as [_ ->]. by destruct (Hnew _ _ H') as [_ ->].
  - rewrite fmap_app. simpl.
    apply NoDup_app in H6 as (Ha & Hd & Hq).
    rewrite <- app_assoc. apply NoDup_app. split; [done|]. split.
    + intros id' Hid [->|Hin]%elem_of_cons.
      * apply list_elem_of_fmap in Hid as (a & E & Hin).
        pose proof (applied_fresh s a HC Hin). lia.
      * by eapply Hd.
    + apply NoDup_cons. split; [|done].
      intros ([id' q] & E & Hq')%list_elem_of_fmap. simpl in E.
      specialize (H5 _ _ (H4 _ _ Hq')). lia.
  - intros ida ra idb rb Hp Hb.
    change (history s ++ [Invoke (nextId s) r; Return (nextId s) (process 0 true r (store s)).2])
      with (history s ++ [Invoke (nextId s) r] ++ [Return (nextId s) (process 0 true r (store s)).2]) in Hp.
    rewrite app_assoc in Hp.
    apply precedes_snoc_inv in Hp as [Hp|[[=] _]].
    rewrite fmap_app in *.
    apply precedes_snoc_inv in Hp as [Hp|[[= -> ->] Hr]].
    + apply elem_of_app in Hb as [Hb|Hb].
      * apply precedes_app_l. by eapply H7.
      * apply elem_of_cons in Hb as [->|Hb]; [|by apply elem_of_nil in Hb].
        apply precedes_elem in Hp as [_ Hi]. specialize (H5 _ _ Hi).
        simpl in H5. lia.
    + apply precedes_snoc.
      destruct (H2 _ _ Hr) as (a & Ha & <- & _). by apply list_elem_of_fmap_2.
Qed.

Lemma Core_step l s s' : Core s → step l s = Some s' → Core s'.
Proof.
  intros HC. destruct l as [r|now ok]; simpl.
  - destruct (stopped (store s)) eqn:Hst; intros [= <-].
    + by apply Core_submit_stopped.
    + by apply Core_submit_running.
  - destruct (stopped (store s)); [discriminate|].
    destruct (queue s) as [|[id r] q] eqn:Hq; [discriminate|].
    intros [= <-]. by apply Core_owner.
Qed.

Lemma serializer_invariant (P : State Value → Prop) :
  (∀ l s s', P s → step l s = Some s' → P s') →
  ∀ ls s s', P s → run ls s = Some s' → P s'.
Proof.
  intros HP. induction ls as [|l ls IH]; intros s s' Hs; simpl.
  - by intros [= <-].
  - destruct (step l s) as [q|] eqn:Hq; [|discriminate]. simpl.
    apply IH. by eapply HP.
Qed.

Lemma Core_run ls s : run ls (init s0) = Some s → Core s.
Proof. apply (serializer_invariant Core Core_step), Core_init. Qed.

(** *** Whole groups *)

(** The group is one a push installed whole, or one of the initial table. *)
Definition fromPush (key : GroupingKey) (grp : MetricGroup Value)
    (h : list (Event Value)) : Prop :=
  groups (table s0) !! key = Some grp ∨
  ∃ id families now, grp = newGroup families now ∧
                     Invoke id (ReqPush key families) ∈ h.

Lemma fromPush_later key grp h h' : fromPush key grp h → fromPush key grp (h ++ h').
Proof.
  intros [H|(id & f & now & -> & H)]; [by left|right].
  exists id, f, now. split; [done|]. apply elem_of_app. by left.
Qed.

Record Whole s : Prop := {
  w_store : ∀ key grp, groups (table (store s)) !! key = Some grp →
            fromPush key grp (history s);
  w_read : ∀ id g key grp, Return id (RespSnapshot g) ∈ history s →
           g !! key = Some grp → fromPush key grp (history s);
}.

Lemma Whole_init : Whole (init s0).
Proof.
  split; simpl.
  - intros key grp H. by left.
  - intros id g key grp H. by apply elem_of_nil in H.
Qed.

(** Appending to the history what an applied message returns. *)
Lemma Whole_apply s id now ok r h' :
  Whole s → Invoke id r ∈ history s ++ h' →
  (∀ id' g, Return id' (RespSnapshot g) ∈ h' →
     (process now ok r (store s)).2 = RespSnapshot g) →
  ∀ s', store s' = (process now ok r (store s)).1 →
        history s' = history s ++ h' → Whole s'.
Proof.
  intros [Hs Hr] Hin Hnew s' Est Eh. split; rewrite Eh.
  - intros key grp. rewrite Est.
    destruct (process_groups now ok r (store s))
      as [[-> _]|[(k & f & -> & _ & ->)|(k & -> & ->)]].
    + intros H. by apply fromPush_later, Hs.
    + destruct (decide (k = key)) as [->|Hne].
      * rewrite lookup_insert_eq. intros [= <-]. right. by exists id, f, now.
      * rewrite lookup_insert_ne by done. intros H. by apply fromPush_later, Hs.
    + destruct (decide (k = key)) as [->|Hne].
      * by rewrite lookup_delete_eq.
      * rewrite lookup_delete_ne by done. intros H. by apply fromPush_later, Hs.
  - intros id' g key grp [H|H]%elem_of_app Hg.
    + by eapply fromPush_later, Hr.
    + apply Hnew, process_snapshot in H as (_ & -> & _).
      by apply fromPush_later, Hs.
Qed.

Lemma Whole_step l s s' : Core s → Whole s → step l s = Some s' → Whole s'.
Proof.
  intros HC HW. destruct l as [r|now ok]; simpl.
  - destruct (stopped (store s)) eqn:Hst; intros [= <-].
    + eapply (Whole_apply s (nextId s) 0 true r
                [Invoke (nextId s) r; Return (nextId s) (process 0 true r (store s)).2]);
        [done| | |simpl|done].
      * apply elem_of_app. right. by left.
      * intros id' g H. apply elem_of_cons in H as [[=]|H].
        apply elem_of_cons in H as [[= _ ->]|H]; [done|by apply elem_of_nil in H].
      * by rewrite process_stopped.
    + destruct HW as [Hs Hr]. split; simpl.
      * intros key grp H. by apply fromPush_later, Hs.
      * intros id g key grp [H|H]%elem_of_app Hg; [by eapply fromPush_later, Hr|].
        apply elem_of_cons in H as [[=]|H]. by apply elem_of_nil in H.
  - destruct (stopped (store s)); [discriminate|].
    destruct (queue s) as [|[id r] q] eqn:Hq; [discriminate|].
    intros [= <-].
    eapply (Whole_apply s id now ok r [Return id (process now ok r (store s)).2]);
      [done| | |done|done].
    + apply elem_of_app. left. apply (c_queue s HC). rewrite Hq. by left.
    + intros id' g H.
      apply elem_of_cons in H as [[= _ ->]|H]; [done|by apply elem_of_nil in H].
Qed.

(** *** Pushes to distinct keys *)

Lemma NoDup_omap_distinct {A B} (f : A → option B) (l : list A) :
  NoDup (omap f l) → ∀ (x y : A) (u v : B),
  x ∈ l → y ∈ l → x ≠ y → f x = Some u → f y = Some v → u ≠ v.
Proof.
  induction l as [|z l IH]; intros Hnd x y u v Hx Hy Hne Hfx Hfy.
  { by apply elem_of_nil in Hx. }
  apply elem_of_cons in Hx as [->|Hx]; apply elem_of_cons in Hy as [->|Hy].
  - done.
  - simpl in Hnd. rewrite Hfx in Hnd. apply NoDup_cons in Hnd as [Hn _].
    intros ->. apply Hn. apply list_elem_of_omap. by exists y.
  - simpl in Hnd. rewrite Hfy in Hnd. apply NoDup_cons in Hnd as [Hn _].
    intros ->. apply Hn. apply list_elem_of_omap. by exists x.
  - apply (IH) with x y; try done. simpl in Hnd.
    destruct (f z); [by apply NoDup_cons in Hnd as [_ ?]|done].
Qed.

Lemma Quiet_prefix (h h' : list (Event Value)) : Quiet (h ++ h') → Quiet h.
Proof.
  intros [Hnd Hdel]. split.
  - rewrite omap_app in Hnd. by apply NoDup_app in Hnd as [? _].
  - intros e He. apply Hdel, elem_of_app. by left.
Qed.

Lemma Quiet_distinct (h : list (Event Value)) id1 k1 f1 id2 k2 f2 :
  Quiet h → Invoke id1 (ReqPush k1 f1) ∈ h → Invoke id2 (ReqPush k2 f2) ∈ h →
  id1 ≠ id2 → k1 ≠ k2.
Proof.
  intros [Hnd _] H1 H2 Hne.
  eapply (NoDup_omap_distinct pushKey h Hnd _ _ k1 k2 H1 H2); [congruence|done..].
Qed.

Record Vis s : Prop := {
  v_store : ∀ a key f, a ∈ applied s → a_req a = ReqPush key f →
            a_resp a = RespDone →
            ∃ now, groups (table (store s)) !! key = Some (newGroup f now);
  v_read : ∀ idr g a key f, Return idr (RespSnapshot g) ∈ history s →
           a ∈ applied s → a_req a = ReqPush key f → a_resp a = RespDone →
           precedes (a_id a) idr (a_id <$> applied s) →
           ∃ now, g !! key = Some (newGroup f now);
}.

Lemma Vis_apply s id now ok r h' s' :
  Core s → Vis s →
  id ∉ a_id <$> applied s →
  Quiet (history s ++ h') →
  Invoke id r ∈ history s ++ h' →
  (∀ id' g, Return id' (RespSnapshot g) ∈ h' →
     id' = id ∧ (process now ok r (store s)).2 = RespSnapshot g) →
  store s' = (process now ok r (store s)).1 →
  history s' = history s ++ h' →
  applied s' = applied s ++
    [{| a_id := id; a_now := now; a_diskOk := ok; a_req := r;
        a_resp := (process now ok r (store s)).2 |}] →
  Vis s'.
Proof.
  intros HC [Hs Hr] Hid HQ Hin Hnew Est Eh Ea.
  assert (Hold : ∀ a, a ∈ applied s → a_id a ≠ id).
  { intros a Ha E. apply Hid. rewrite <- E. by apply list_elem_of_fmap_2. }
  split; rewrite ?Est, ?Eh, ?Ea.
  - intros a key f [Ha|Ha]%elem_of_app Hreq Hresp.
    + destruct (process_groups now ok r (store s))
        as [[-> _]|[(k & f0 & -> & _ & ->)|(k & -> & _)]].
      * exact (Hs a key f Ha Hreq Hresp).
      * rewrite lookup_insert_ne; [exact (Hs a key f Ha Hreq Hresp)|].
        apply (Quiet_distinct (history s ++ h') id k f0 (a_id a) key f HQ Hin).
        -- apply elem_of_app. left. rewrite <- Hreq. by apply (c_inv s HC).
        -- intros E. by apply (Hold a Ha).
      * destruct HQ as [_ Hdel]. destruct (Hdel _ Hin). by eexists _, _.
    + apply elem_of_cons in Ha as [->|Ha]; [|by apply elem_of_nil in Ha].
      simpl in Hreq, Hresp. subst r.
      destruct (process_groups now ok (ReqPush key f) (store s))
        as [[_ Hno]|[(k & f0 & [= <- <-] & _ & ->)|(k & [=] & _)]].
      * by destruct (Hno Hresp key f).
      * exists now. by rewrite lookup_insert_eq.
  - intros idr g a key f [Hret|Hret]%elem_of_app Ha Hreq Hresp Hp.
    + rewrite fmap_app in Hp. simpl in Hp.
      destruct (c_ret s HC _ _ Hret) as (b & Hb & Eb & _).
      apply precedes_snoc_inv in Hp as [Hp|[-> _]].
      * apply elem_of_app in Ha as [Ha|Ha];
          [exact (Hr idr g a key f Hret Ha Hreq Hresp Hp)|].
        apply elem_of_cons in Ha as [->|Ha]; [|by apply elem_of_nil in Ha].
        apply precedes_elem in Hp as [Hp _]. done.
      * destruct (Hold b Hb Eb).
    + destruct (Hnew _ _ Hret) as [-> Hsnap].
      apply process_snapshot in Hsnap as (-> & -> & _).
      apply elem_of_app in Ha as [Ha|Ha]; [exact (Hs a key f Ha Hreq Hresp)|].
      apply elem_of_cons in Ha as [->|Ha]; [done|by apply elem_of_nil in Ha].
Qed.

Lemma Vis_init : Vis (init s0).
Proof.
  split; simpl.
  - intros a key f H. by apply elem_of_nil in H.
  - intros idr g a key f H. by apply elem_of_nil in H.
Qed.

Lemma Vis_step l s s' :
  Core s → (Quiet (history s) → Vis s) → step l s = Some s' →
  Quiet (history s') → Vis s'.
Proof.
  intros HC HV. destruct l as [r|now ok]; simpl.
  - destruct (stopped (store s)) eqn:Hst; intros [= <-]; simpl; intros HQ.
    + eapply (Vis_apply s (nextId s) 0 true r
                [Invoke (nextId s) r; Return (nextId s) (process 0 true r (store s)).2]);
        try done.
      * by eapply HV, Quiet_prefix.
      * intros (a & E & Ha)%list_elem_of_fmap.
        pose proof (applied_fresh s a HC Ha). lia.
      * apply elem_of_app. right. by left.
      * intros id' g H. apply elem_of_cons in H as [[=]|H].
        apply elem_of_cons in H as [[= -> ->]|H]; [done|by apply elem_of_nil in H].
      * simpl. by rewrite process_stopped.
    + destruct (HV (Quiet_prefix _ _ HQ)) as [Hs Hr]. split; simpl; [done|].
      intros idr g a key f [H|H]%elem_of_app; [by eapply Hr|].
      apply elem_of_cons in H as [[=]|H]. by apply elem_of_nil in H.
  - destruct (stopped (store s)); [discriminate|].
    destruct (queue s) as [|[id r] q] eqn:Hq; [discriminate|].
    intros [= <-]; simpl; intros HQ.
    eapply (Vis_apply s id now ok r [Return id (process now ok r (store s)).2]);
      try done.
    + by eapply HV, Quiet_prefix.
    + pose proof (c_nodup s HC) as Hnd. rewrite Hq in Hnd.
      apply NoDup_app in Hnd as (_ & Hd & _). intros Hin.
      apply (Hd _ Hin). by left.
    + apply elem_of_app. left. apply (c_queue s HC). rewrite Hq. by left.
    + intros id' g H.
      apply elem_of_cons in H as [[= -> ->]|H]; [done|by apply elem_of_nil in H].
Qed.

Lemma All_run ls s :
  run ls (init s0) = Some s → Core s ∧ Whole s ∧ (Quiet (history s) → Vis s).
Proof.
  apply (serializer_invariant (λ s, Core s ∧ Whole s ∧ (Quiet (history s) → Vis s))).
  - intros l s1 s2 (HC & HW & HV) Hstep. split; [by eapply Core_step|].
    split; [by eapply Whole_step|]. by eapply Vis_step.
  - split; [apply Core_init|]. split; [apply Whole_init|]. intros _. apply Vis_init.
Qed.

(** C8.  The single owner linearizes the store.  For every execution of
    callers and owner there is one sequence [lin] of the operations that
    took effect such that: [lin] is a legal sequential run of the store from
    its initial state to its current one; every call that has returned is
    in [lin] with the response it got; every operation of [lin] was called,
    once; and an operation that returned before another was called comes
    before it in [lin].  Every group of every snapshot a reader got is whole:
    it is a group of the initial table or the group a push installed from
    its whole payload.  And when the calls push to pairwise distinct keys
    and none deletes, a read called after a push has returned successfully
    sees the group of that push. *)
Theorem serializer_linearizable ls s :
  run ls (init s0) = Some s →
  ∃ lin,
    legal s0 lin (store s) ∧
    (∀ id resp, Return id resp ∈ history s →
       ∃ a, a ∈ lin ∧ a_id a = id ∧ a_resp a = resp) ∧
    (∀ a, a ∈ lin → Invoke (a_id a) (a_req a) ∈ history s) ∧
    NoDup (a_id <$> lin) ∧
    (∀ ida ra idb rb,
       precedes (Return ida ra) (Invoke idb rb) (history s) →
       idb ∈ a_id <$> lin → precedes ida idb (a_id <$> lin)) ∧
    (∀ id g key grp,
       Return id (RespSnapshot g) ∈ history s → g !! key = Some grp →
       groups (table s0) !! key = Some grp ∨
       ∃ id' families now, grp = newGroup families now ∧
                           Invoke id' (ReqPush key families) ∈ history s) ∧
    (Quiet (history s) →
     ∀ idp key families idr g,
       Invoke idp (ReqPush key families) ∈ history s →
       precedes (Return idp RespDone) (Invoke idr ReqReadSnapshot) (history s) →
       Return idr (RespSnapshot g) ∈ history s →
       ∃ now, g !! key = Some (newGroup families now)).
Proof.
  intros Hrun. destruct (All_run ls s Hrun) as (HC & HW & HV).
  exists (applied s).
  split; [apply (c_legal s HC)|]. split; [apply (c_ret s HC)|].
  split; [apply (c_inv s HC)|].
  split; [by destruct (proj1 (NoDup_app _ _) (c_nodup s HC)) as [? _]|].
  split; [apply (c_rt s HC)|]. split; [apply (w_read s HW)|].
  intros HQ idp key families idr g Hinv Hp Hret.
  destruct (HV HQ) as [_ Hr].
  pose proof (precedes_elem _ _ _ Hp) as [Hretp _].
  destruct (c_ret s HC _ _ Hretp) as (a & Ha & Eid & Eresp).
  destruct (c_ret s HC _ _ Hret) as (b & Hb & Eidb & _).
  assert (Ereq : a_req a = ReqPush key families).
  { apply (c_uniq s HC idp); [|done]. rewrite <- Eid. by apply (c_inv s HC). }
  apply (Hr idr g a key families Hret Ha Ereq Eresp).
  rewrite Eid. apply (c_rt s HC _ _ _ _ Hp).
  rewrite <- Eidb. by apply list_elem_of_fmap_2.
Qed.

End WithValue.
End SerializerFacts.

(** * Concrete instances *)

Module Examples.
Import Storage.
Local Open Scope Z_scope.

Definition gaugeFamily (n : string) (v : Z) : MetricFamily Z :=
  {| mf_name := n; mf_help := "help"; mf_type := Gauge;
     mf_samples := [{| s_labels := []; s_values := [v] |}] |}.

Definition jobA : GroupingKey := [("job", "a")].
Definition jobB : GroupingKey := [("job", "b")].

(** A store that persists to [file] every ten nanoseconds at the least. *)
Definition store10 : DiskMetricStore Z := NewDiskMetricStore "file" 10 Missing 0.

Definition afterFoo : DiskMetricStore Z :=
  (process 1 true (ReqPush jobA [gaugeFamily "foo" 1]) store10).1.

Definition afterBar : DiskMetricStore Z :=
  (process 2 true (ReqPush jobA [gaugeFamily "bar" 2]) afterFoo).1.

Lemma push_replaces_group_witness :
  ∃ g, process 3 true ReqReadSnapshot afterBar = (afterBar, RespSnapshot g) ∧
       g !! jobA = Some (newGroup [gaugeFamily "bar" 2] 2) ∧
       g = <[jobA := newGroup [gaugeFamily "bar" 2] 2]> (groups (table store10)).
Proof.
  destruct (StorageFacts.push_replaces_group jobA [gaugeFamily "foo" 1]
              [gaugeFamily "bar" 2] 1 2 true true store10 afterFoo afterBar
              eq_refl eq_refl 3 true) as (g & H1 & H2 & _ & H3 & _).
  exists g. done.
Defined.

(** A push, the debounced write it causes, a second push and Shutdown one
    nanosecond after the write. *)
Definition flushOps : list (Z * bool * Request Z) :=
  [ (1, true, ReqPush jobA [gaugeFamily "foo" 1]);
    (11, true, ReqPersist);
    (12, true, ReqShutdown) ].

(** C4, as stated, fails: the final flush of Shutdown is written one
    nanosecond after the debounced write, with an interval of ten. *)
Lemma never_more_often_counterexample :
  chronological 0 flushOps ∧
  (w_time <$> writes (runStore flushOps store10)) = [11; 12] ∧
  ¬ NeverMoreOften (interval store10) (writes (runStore flushOps store10)).
Proof.
  split; [simpl; lia|]. split; [reflexivity|].
  intros H.
  specialize (H [] {| w_time := 11; w_kind := Debounced; w_ok := true;
                      w_groups := groups (table afterFoo) |}
                {| w_time := 12; w_kind := FinalFlush; w_ok := true;
                   w_groups := groups (table afterFoo) |} [] eq_refl).
  simpl in H. lia.
Defined.

Definition twoWrites : list (Z * bool * Request Z) :=
  [ (1, true, ReqPush jobA [gaugeFamily "foo" 1]);
    (11, true, ReqPersist) ].

Definition afterTwentyPush : DiskMetricStore Z :=
  (process 20 true (ReqPush jobA [gaugeFamily "bar" 2]) (runStore twoWrites store10)).1.

Lemma writes_debounced_witness :
  chronological 0 twoWrites ∧
  DebouncedSpaced 10 (writes (runStore twoWrites store10)) ∧
  writes (runStore ([(25, true, ReqPush jobB [gaugeFamily "foo" 3])]
                      ++ [(30, false, ReqPersist)]) afterTwentyPush) =
    writes (runStore twoWrites store10) ++
      [{| w_time := 30; w_kind := Debounced; w_ok := false;
          w_groups := groups (table (runStore
                        [(25, true, ReqPush jobB [gaugeFamily "foo" 3])]
                        afterTwentyPush)) |}].
Proof.
  assert (Hc : chronological 0 twoWrites) by (simpl; lia).
  destruct (StorageFacts.writes_debounced "file" 10 Missing 0 twoWrites Hc)
    as (H1 & _ & H3).
  split; [exact Hc|]. split; [exact H1|].
  apply (H3 jobA [gaugeFamily "bar" 2] 20 true afterTwentyPush
           [(25, true, ReqPush jobB [gaugeFamily "foo" 3])] 30 false);
    [reflexivity|reflexivity|reflexivity| |lia].
  repeat constructor; simpl; lia.
Defined.

Lemma delete_idempotent_witness :
  GetAllGroups (Delete jobB (table afterFoo)) !! jobA
    = GetAllGroups (table afterFoo) !! jobA ∧
  Delete jobB (table afterFoo) = table afterFoo ∧
  (process 3 true (ReqDelete jobB) afterFoo).2 = RespDone.
Proof.
  destruct (StorageFacts.delete_idempotent jobB (table afterFoo))
    as (_ & H2 & _ & H4 & H5).
  split; [apply H2; discriminate|]. split; [apply H4; reflexivity|].
  apply (H5 3 true afterFoo). reflexivity.
Defined.

(** *** The serializer *)

Import Serializer.

Definition twoCallers : list (Label Z) :=
  [ Submit (ReqPush jobA [gaugeFamily "foo" 1]);
    Submit (ReqPush jobB [gaugeFamily "foo" 2]);
    Owner 1 true;
    Owner 2 true;
    Submit ReqReadSnapshot;
    Owner 3 true ].

Definition afterTwoCallers : State Z :=
  default (init store10) (run twoCallers (init store10)).

Lemma serializer_linearizable_witness :
  ∃ lin, legal store10 lin (store afterTwoCallers) ∧
         NoDup (a_id <$> lin) ∧
         ∀ id resp, Return id resp ∈ history afterTwoCallers →
                    ∃ a, a ∈ lin ∧ a_id a = id ∧ a_resp a = resp.
Proof.
  destruct (SerializerFacts.serializer_linearizable store10 twoCallers
              afterTwoCallers eq_refl) as (lin & H1 & H2 & _ & H4 & _).
  exists lin. split; [exact H1|]. split; [exact H4|exact H2].
Defined.

(** *** The process *)

Import Main.

Definition float : Z → Z := id.
Definition format : Z → string := pretty.

Definition noFlags : gmap string FlagValue := ∅.

Definition withFile : gmap string FlagValue :=
  {[ "persistence.file" := StringValue "metrics.db" ]}.

Definition closedListener : string :=
  "accept tcp [::]:8080: use of closed network connection".

Definition graceful : list (Label Z) :=
  [ LListen None; LGo; LNotify;
    LAccept {| method := "PUT"; path := "/metrics/job/a";
               body := Some [gaugeFamily "foo" 1] |};
    LSignal true; LClose;
    LHandle 0 1 {| ReadMemStats := zeroMemStats; NumGoroutine := 4 |};
    LServeReturn closedListener; LSleep; LShutdown 2 false; LReturn ].

Definition afterGraceful : Process Z :=
  default (start float withFile Missing 0)
    (run float format graceful (start float withFile Missing 0)).


Definition untilSleep : list (Label Z) :=
  [ LListen None; LGo; LNotify; LSignal true; LClose;
    LServeReturn closedListener; LSleep ].

Definition beforeShutdown : Process Z :=
  default (start float withFile Missing 0)
    (run float format untilSleep (start float withFile Missing 0)).

Lemma shutdown_error_does_not_block_witness :
  ∃ q, run float format [LShutdown 9 false; LReturn] beforeShutdown = Some q ∧
       mainPc q = Exited 0 ∧
       trace q = trace beforeShutdown ++
                 [EvShutdown (Some ErrPersist);
                  EvLog "Problem shutting down metric storage: persistence failed";
                  EvExit 0].
Proof.
  assert (Hrun : run float format untilSleep (start float withFile Missing 0)
                 = Some beforeShutdown) by (vm_compute; reflexivity).
  destruct (MainFacts.shutdown_error_does_not_block float format withFile
              Missing 0 untilSleep beforeShutdown 9 false Hrun eq_refl)
    as (q & H1 & H2 & H3 & _).
  exists q. split; [exact H1|]. split; [exact H2|exact H3].
Defined.

Definition bindFails : list (Label Z) :=
  [ LTimer 1 true; LListen (Some "listen tcp :8080: bind: address already in use") ].

Definition afterBindFails : Process Z :=
  default (start float noFlags Missing 0)
    (run float format bindFails (start float noFlags Missing 0)).

Lemma listen_failure_skips_shutdown_witness :
  (∀ l, step float format l afterBindFails = None) ∧
  (∀ err, EvShutdown err ∉ trace afterBindFails) ∧
  stopped (ms (world afterBindFails)) = false.
Proof.
  assert (Hrun : run float format bindFails (start float noFlags Missing 0)
                 = Some afterBindFails) by (vm_compute; reflexivity).
  destruct (proj2 (MainFacts.listen_failure_skips_shutdown float format noFlags
                     Missing 0) bindFails afterBindFails Hrun eq_refl)
    as (H1 & e & _ & H2 & _ & H3 & _).
  split; [exact H1|]. split; [exact H2|exact H3].
Defined.

Lemma flags_configure_witness :
  file (ms (world afterBindFails)) = "" ∧
  interval (ms (world afterBindFails)) = 5 * Minute ∧
  writes (ms (world afterBindFails)) = [] ∧
  is_Some (setFlag "addr" (StringValue ":9091") noFlags) ∧
  ¬ is_Some (setFlag "web.listen-address" (StringValue ":9091") noFlags).
Proof.
  assert (Hrun : run float format bindFails (start float noFlags Missing 0)
                 = Some afterBindFails) by (vm_compute; reflexivity).
  destruct (MainFacts.flags_configure float format noFlags Missing 0
              bindFails afterBindFails Hrun) as (_ & H2 & _ & H4 & H5 & H6).
  split; [exact H4|]. split; [exact H5|].
  split; [exact (proj1 (proj2 (H6 eq_refl)))|].
  split.
  - apply H2. left. exists ":9091". split; [reflexivity|by left].
  - intros H. apply H2 in H as [(x & _ & [H|H])|(d & H & _)]; discriminate H.
Defined.

Lemma scrape_refreshes_internal_metrics_witness :
  ∃ g' text,
    ServeHTTP float format 7 {| ReadMemStats := zeroMemStats; NumGoroutine := 4 |}
      {| method := "GET"; path := "/metrics"; body := None |}
      (world beforeShutdown)
    = ({| globals := g'; ms := ms (world beforeShutdown) |}, Exposition text, []).
Proof.
  assert (Hrun : run float format untilSleep (start float withFile Missing 0)
                 = Some beforeShutdown) by (vm_compute; reflexivity).
  destruct (MainFacts.scrape_refreshes_internal_metrics float format withFile
              Missing 0 untilSleep beforeShutdown 7
              {| ReadMemStats := zeroMemStats; NumGoroutine := 4 |} None Hrun)
    as (g' & H & _).
  exists g'. eexists. exact H.
Defined.

Lemma routes_reach_store_witness :
  ServeHTTP float format 7 {| ReadMemStats := zeroMemStats; NumGoroutine := 4 |}
    {| method := "POST"; path := "/metrics/job/" +:+ "batch";
       body := Some [gaugeFamily "foo" 1] |}
    (world beforeShutdown)
  = let res := process 7 true (ReqPush [("job", "batch")] [gaugeFamily "foo" 1])
                 (ms (world beforeShutdown)) in
    ({| globals := globals (world beforeShutdown); ms := res.1 |}, answer res.2, []).
Proof.
  destruct (MainFacts.routes_reach_store float format "batch" "host1" 7
              {| ReadMemStats := zeroMemStats; NumGoroutine := 4 |}
              (world beforeShutdown) eq_refl eq_refl) as (_ & H & _).
  apply (H "POST" [gaugeFamily "foo" 1]). by right.
Defined.




(** C5, as stated, fails: [..] stands for [:job] in the pattern, yet the
    request is answered with a redirect and the store is left alone, where a
    push would have changed it. *)
Lemma dot_segment_counterexample :
  isSegment ".." = true ∧ isSegment "b" = true ∧
  ServeHTTP float format 7 {| ReadMemStats := zeroMemStats; NumGoroutine := 4 |}
    {| method := "PUT";
       path := "/metrics/job/" +:+ ".." +:+ "/instance/" +:+ "b";
       body := Some [gaugeFamily "foo" 1] |}
    (world beforeShutdown)
  = (world beforeShutdown, StatusMovedPermanently "/metrics/instance/b", []) ∧
  (process 7 true (ReqPush [("instance", "b"); ("job", "..")] [gaugeFamily "foo" 1])
     (ms (world beforeShutdown))).1 ≠ ms (world beforeShutdown).
Proof.
  split; [reflexivity|]. split; [reflexivity|]. split; [vm_compute; reflexivity|].
  intros H.
  apply (f_equal (λ s, groups (table s) !! [("instance", "b"); ("job", "..")])) in H.
  vm_compute in H. discriminate H.
Defined.

End Examples.

(** * Further properties of [main.go] *)

Module Extra.
Import Storage Main StorageFacts MainFacts.

(** ** The route table *)

Section Routes.

Local Opaque try.

(** X1.  PUT and POST are routed alike: for every path the mux picks the
    same handler with the same parameters for the two methods. *)
Theorem put_post_same_route path :
  dispatch mux "PUT" path = dispatch mux "POST" path.
Proof. reflexivity. Qed.



Lemma mux_routes :
  mux = [ {| r_method := "HEAD"; r_pattern := "/metrics"; r_handler := MetricsHandler |};
          {| r_method := "GET"; r_pattern := "/metrics"; r_handler := MetricsHandler |};
          {| r_method := "PUT"; r_pattern := "/metrics/job/:job/instance/:instance";
             r_handler := PushHandler |};
          {| r_method := "POST"; r_pattern := "/metrics/job/:job/instance/:instance";
             r_handler := PushHandler |};
          {| r_method := "DELETE"; r_pattern := "/metrics/job/:job/instance/:instance";
             r_handler := DeleteHandler |};
          {| r_method := "PUT"; r_pattern := "/metrics/job/:job";
             r_handler := PushHandler |};
          {| r_method := "POST"; r_pattern := "/metrics/job/:job";
             r_handler := PushHandler |};
          {| r_method := "DELETE"; r_pattern := "/metrics/job/:job";
             r_handler := DeleteHandler |} ].
Proof. reflexivity. Qed.


End Routes.


(** ** The flags *)

(** The value the arguments give the flag [name] last, if they give one. *)
Fixpoint lastSet (name : string) (args : list (string * FlagValue))
    : option FlagValue :=
  match args with
  | [] => None
  | (n, v) :: args' =>
      match lastSet name args' with
      | Some v' => Some v'
      | None => if bool_decide (n = name) then Some v else None
      end
  end.

Lemma setFlag_Some name v (a a' : gmap string FlagValue) :
  setFlag name v a = Some a' → a' = <[name := v]> a ∧ is_Some (setFlag name v ∅).
Proof.
  unfold setFlag. destruct (lookupFlag name) as [f|]; [|done].
  destruct (sameKind (f_default f) v); [|done]. intros [= <-]. eauto.
Qed.

Lemma setFlag_any name v (a b : gmap string FlagValue) :
  is_Some (setFlag name v a) → is_Some (setFlag name v b).
Proof.
  unfold setFlag. destruct (lookupFlag name) as [f|]; [|done].
  destruct (sameKind (f_default f) v); [eauto|done].
Qed.

(** X3.  [flag.Parse] succeeds exactly when every argument sets a defined
    flag to a value of its kind.  After it, a flag holds the value the
    arguments gave it last, and a flag they do not mention keeps what it
    had: its default, when nothing was set before. *)
Theorem Parse_last_setting_wins args (a0 : gmap string FlagValue) :
  (is_Some (Parse args a0) ↔ Forall (λ x, is_Some (setFlag x.1 x.2 ∅)) args) ∧
  (∀ a, Parse args a0 = Some a →
     (∀ n, a !! n = match lastSet n args with
                    | Some v => Some v
                    | None => a0 !! n
                    end) ∧
     (∀ f, lastSet (f_name f) args = None → flagValue f a = flagValue f a0)).
Proof.
  split.
  - revert a0. induction args as [|[n v] args IH]; intros a0; cbn [Parse].
    + split; [by constructor|eauto].
    + rewrite Forall_cons. cbn [fst snd]. split.
      * destruct (setFlag n v a0) as [a1|] eqn:E; [|by intros [? [=]]].
        cbn [mbind option_bind]. intros H. split; [|by apply (IH a1)].
        apply (setFlag_any n v a0). by rewrite E.
      * intros [H1 H2]. destruct (setFlag_any n v ∅ a0 H1) as [a1 E].
        rewrite E. cbn [mbind option_bind]. by apply IH.
  - assert (H : ∀ a, Parse args a0 = Some a →
              ∀ n, a !! n = match lastSet n args with
                            | Some v => Some v
                            | None => a0 !! n
                            end).
    { revert a0. induction args as [|[n v] args IH]; intros a0 a; cbn [Parse].
      - by intros [= <-] m.
      - destruct (setFlag n v a0) as [a1|] eqn:E; [|done].
        cbn [mbind option_bind]. intros HP m.
        apply setFlag_Some in E as [-> _].
        rewrite (IH _ _ HP m). cbn [lastSet].
        destruct (lastSet m args); [done|].
        case_bool_decide as Hn.
        + subst. by rewrite lookup_insert_eq.
        + by rewrite lookup_insert_ne. }
    intros a HP. split; [by apply H|].
    intros f Hf. unfold flagValue. by rewrite (H a HP), Hf.
Qed.

Lemma Parse_last_setting_wins_witness :
  ∃ a, Parse [ ("addr", StringValue ":9091"); ("addr", StringValue ":9092") ] ∅
         = Some a ∧
       stringOf addr a = ":9092" ∧
       durationOf persistenceDuration a = (5 * Minute)%Z.
Proof.
  destruct (Parse_last_setting_wins
              [ ("addr", StringValue ":9091"); ("addr", StringValue ":9092") ] ∅)
    as [_ H].
  eexists. split; [reflexivity|].
  destruct (H _ eq_refl) as [H1 H2]. split.
  - unfold stringOf, flagValue. change (f_name addr) with "addr".
    by rewrite (H1 "addr").
  - unfold durationOf. by rewrite (H2 persistenceDuration eq_refl).
Defined.

(** ** Requests *)

Section WithValue.
Context {Value : Type} (float64 : Z → Value) (formatValue : Value → string).

Local Arguments ServeHTTP : simpl never.
Local Arguments process : simpl never.
Local Arguments Shutdown : simpl never.


Lemma dispatch_none routes m path :
  (∀ r, r ∈ routes → r_method r = m → try (r_pattern r) path = None) →
  dispatch routes m path = None.
Proof.
  induction routes as [|r routes IH]; [done|]. intros H. cbn [dispatch].
  case_bool_decide as Hm.
  - rewrite (H r) by (done || left). apply IH. intros r' Hr'. apply H. by right.
  - apply IH. intros r' Hr'. apply H. by right.
Qed.

Lemma try_metrics_longer rest :
  try "/metrics" ("/metrics/" +:+ rest) = None.
Proof. reflexivity. Qed.

Lemma otherMethodMatches_intro r routes m path ps :
  r ∈ routes → r_method r ≠ m → try (r_pattern r) path = Some ps →
  otherMethodMatches routes m path = true.
Proof.
  intros Hr Hm Ht. unfold otherMethodMatches. apply existsb_exists.
  exists r. split; [by apply list_elem_of_In|].
  rewrite bool_decide_eq_false_2 by done. rewrite Ht.
  by rewrite bool_decide_eq_true_2 by eauto.
Qed.

(** X5.  A request on one of the push paths with a method other than PUT,
    POST and DELETE, and a request on [/metrics] with a method other than
    GET and HEAD, reaches no handler: it is answered 405 and leaves the
    store and the internal metrics as they are. *)
Theorem other_methods_not_allowed job instance m b now rt (w : World Value) :
  isCleanSegment job = true → isCleanSegment instance = true →
  let serve := ServeHTTP float64 formatValue now rt in
  (m ≠ "PUT" → m ≠ "POST" → m ≠ "DELETE" →
     serve {| method := m; path := "/metrics/job/" +:+ job; body := b |} w
       = (w, StatusMethodNotAllowed, []) ∧
     serve {| method := m;
              path := "/metrics/job/" +:+ job +:+ "/instance/" +:+ instance;
              body := b |} w
       = (w, StatusMethodNotAllowed, [])) ∧
  (m ≠ "GET" → m ≠ "HEAD" →
     serve {| method := m; path := "/metrics"; body := b |} w
       = (w, StatusMethodNotAllowed, [])).
Proof.
  intros (Hj & Hj1 & Hj2)%isCleanSegment_spec (Hi & Hi1 & Hi2)%isCleanSegment_spec.
  intros serve. subst serve. split; [intros H1 H2 H3; split|intros H1 H2].
  - rewrite ServeHTTP_canonical by first [by apply cleanPath_job|reflexivity].
    unfold servePat. cbn [path method].
    rewrite dispatch_none.
    + by rewrite (otherMethodMatches_intro {| r_method := "PUT"; r_pattern := "/metrics/job/:job";
                       r_handler := PushHandler |}
                    mux m _ _ ltac:(rewrite mux_routes; cbn; set_solver)
                    ltac:(cbn; congruence) (try_job job Hj)).
    + rewrite mux_routes. intros r Hr Hm.
      repeat (apply elem_of_cons in Hr as [->|Hr]); cbn in Hm; try congruence;
        try apply (try_metrics_longer ("job/" +:+ job)).
      by apply elem_of_nil in Hr.
  - rewrite ServeHTTP_canonical
      by first [by apply cleanPath_job_instance|reflexivity].
    unfold servePat. cbn [path method].
    rewrite dispatch_none.
    + by rewrite (otherMethodMatches_intro
                    {| r_method := "PUT";
                       r_pattern := "/metrics/job/:job/instance/:instance";
                       r_handler := PushHandler |}
                    mux m _ _ ltac:(rewrite mux_routes; cbn; set_solver)
                    ltac:(cbn; congruence) (try_job_instance job instance Hj Hi)).
    + rewrite mux_routes. intros r Hr Hm.
      repeat (apply elem_of_cons in Hr as [->|Hr]); cbn in Hm; try congruence;
        try apply (try_metrics_longer ("job/" +:+ job +:+ "/instance/" +:+ instance)).
      by apply elem_of_nil in Hr.
  - rewrite ServeHTTP_canonical by reflexivity.
    unfold servePat. cbn [path method].
    rewrite dispatch_none.
    + by rewrite (otherMethodMatches_intro {| r_method := "GET"; r_pattern := "/metrics";
                       r_handler := MetricsHandler |}
                    mux m "/metrics" [] ltac:(rewrite mux_routes; cbn; set_solver)
                    ltac:(cbn; congruence) eq_refl).
    + rewrite mux_routes. intros r Hr Hm.
      repeat (apply elem_of_cons in Hr as [->|Hr]); cbn in Hm; try congruence;
        try reflexivity.
      by apply elem_of_nil in Hr.
Qed.

(** X6.  A HEAD on [/metrics] runs the handler of GET: the internal metrics
    are refreshed from the runtime exactly as by a GET, and the answer
    carries no body. *)
Theorem head_refreshes_like_get now rt b (w : World Value) :
  let serve := ServeHTTP float64 formatValue now rt in
  (serve {| method := "HEAD"; path := "/metrics"; body := b |} w).1.2 = StatusOK ∧
  (serve {| method := "HEAD"; path := "/metrics"; body := b |} w).1.1
    = (serve {| method := "GET"; path := "/metrics"; body := b |} w).1.1 ∧
  (serve {| method := "HEAD"; path := "/metrics"; body := b |} w).2
    = (serve {| method := "GET"; path := "/metrics"; body := b |} w).2 ∧
  (serve {| method := "HEAD"; path := "/metrics"; body := b |} w).1.1
    = {| globals := (updateInternalMetrics float64 rt (globals w)).1; ms := ms w |}.
Proof.
  intros serve. subst serve.
  rewrite !ServeHTTP_canonical by reflexivity.
  unfold servePat, metricsHandler.
  generalize (updateInternalMetrics float64 rt (globals w)). intros U.
  cbn [path method]. done.
Qed.

End WithValue.


Lemma other_methods_not_allowed_witness :
  ServeHTTP Examples.float Examples.format 7
    {| ReadMemStats := zeroMemStats; NumGoroutine := 4 |}
    {| method := "GET"; path := "/metrics/job/" +:+ "batch"; body := None |}
    (world Examples.beforeShutdown)
  = (world Examples.beforeShutdown, StatusMethodNotAllowed, []).
Proof.
  destruct (other_methods_not_allowed Examples.float Examples.format
              "batch" "host1" "GET" None 7
              {| ReadMemStats := zeroMemStats; NumGoroutine := 4 |}
              (world Examples.beforeShutdown) eq_refl eq_refl) as [H _].
  apply H; discriminate.
Defined.

(** ** The life cycle *)

Section LifeCycle.
Context {Value : Type} (float64 : Z → Value) (formatValue : Value → string).
Context (actual : gmap string FlagValue) (onDisk : DiskFile Value) (t0 : Z).

Local Arguments ServeHTTP : simpl never.
Local Arguments process : simpl never.
Local Arguments Shutdown : simpl never.

Abbreviation step := (Main.step float64 formatValue).
Abbreviation run := (Main.run float64 formatValue).
Abbreviation Step := (Main.Step float64 formatValue).
Abbreviation start := (Main.start float64 actual onDisk t0).


(** X8.  No request, timer or signal changes what is registered: in every
    reachable state the default registry holds the seven internal metrics,
    in the order of the table, each under its name and help text and bound
    to its own metric object, six gauges and then the counter. *)
Theorem registry_is_fixed ls p :
  run ls start = Some p →
  registry (globals (world p)) =
    (λ im, {| reg_name := name im; reg_help := help im; reg_metric := metric im |})
      <$> internalMetrics float64 ∧
  m_kind <$> heap (globals (world p)) =
    [GaugeMetric; GaugeMetric; GaugeMetric; GaugeMetric; GaugeMetric; GaugeMetric;
     CounterMetric] ∧
  NoDup (reg_name <$> registry (globals (world p))) ∧
  NoDup (reg_metric <$> registry (globals (world p))).
Proof.
  intros Hrun. pose proof (Inv_run float64 formatValue actual onDisk t0 ls p Hrun) as HI.
  pose proof (inv_registry _ _ _ _ p HI) as Hr. unfold registryKept in Hr.
  rewrite registered_internal in Hr. rewrite Hr.
  split; [done|]. split; [exact (inv_kinds _ _ _ _ p HI)|].
  split; cbn; apply (bool_decide_unpack _); vm_compute; exact I.
Qed.

(** *** The grace period *)

Lemma step_handle (p : Process Value) i now rt r :
  alive p = true → connections p !! i = Some r →
  step (LHandle i now rt) p =
    Some (withWorld (ServeHTTP float64 formatValue now rt r (world p)).1.1
            ((EvLog <$> (ServeHTTP float64 formatValue now rt r (world p)).2)
               ++ [EvRespond r (ServeHTTP float64 formatValue now rt r (world p)).1.2])
            (withConnections (delete i (connections p)) p)).
Proof.
  intros Ha Hc. unfold Main.step. rewrite Ha. cbn [negb].
  destruct (mainPc p), (handlerPc p); by rewrite Hc.
Qed.

Lemma ServeHTTP_put_job job families now rt (w : World Value) :
  isCleanSegment job = true →
  ServeHTTP float64 formatValue now rt
    {| method := "PUT"; path := "/metrics/job/" +:+ job; body := Some families |} w
  = ({| globals := globals w;
        ms := (process now true (ReqPush [("job", job)] families) (ms w)).1 |},
     answer (process now true (ReqPush [("job", job)] families) (ms w)).2, []).
Proof.
  intros (Hj & Hj1 & Hj2)%isCleanSegment_spec.
  rewrite ServeHTTP_canonical by first [by apply cleanPath_job|reflexivity].
  unfold servePat. cbn [path method body].
  by rewrite (dispatch_put_job job "PUT" Hj (or_introl eq_refl)).
Qed.

Lemma process_push_valid now ok key families (s : DiskMetricStore Value) :
  stopped s = false → validPush key families = true →
  (process now ok (ReqPush key families) s).2 = RespDone ∧
  stopped (process now ok (ReqPush key families) s).1 = false ∧
  groups (table (process now ok (ReqPush key families) s).1)
    = <[key := newGroup families now]> (groups (table s)).
Proof.
  intros Hs Hv. unfold Storage.process, Push. rewrite Hs, Hv. cbn [fst snd].
  split; [done|]. unfold markDirty.
  destruct (persistenceEnabled _ && _); [destruct (scheduled _)|]; done.
Qed.

Lemma Shutdown_final_write now ok (s : DiskMetricStore Value) :
  stopped s = false →
  groups (table (Shutdown now ok s).1) = groups (table s) ∧
  (persistenceEnabled s = true →
     writes (Shutdown now ok s).1 =
       writes s ++ [{| w_time := now; w_kind := FinalFlush; w_ok := ok;
                       w_groups := groups (table s) |}]).
Proof.
  intros Hs. unfold Shutdown, Storage.process. rewrite Hs.
  destruct (persistenceEnabled s); [|done].
  unfold persist. by destruct ok.
Qed.

(** X9.  The second that main sleeps after [Serve] has returned serves its
    purpose: a push that a connection accepted earlier submits during it is
    still accepted, the later [ms.Shutdown] sees the pushed group, and with
    persistence the final flush, written at the time of the Shutdown,
    carries it. *)
Theorem grace_period_push_is_flushed ls p i job families now rt now' ok :
  let req := {| method := "PUT"; path := "/metrics/job/" +:+ job;
                body := Some families |} in
  run ls start = Some p → mainPc p = AtSleep →
  connections p !! i = Some req →
  isCleanSegment job = true → validPush [("job", job)] families = true →
  ∃ q, run [LHandle i now rt; LSleep; LShutdown now' ok; LReturn] p = Some q ∧
       mainPc q = Exited 0 ∧
       EvRespond req StatusOK ∈ trace q ∧
       groups (table (ms (world q))) !! [("job", job)]
         = Some (newGroup families now) ∧
       (persistenceEnabled (ms (world p)) = true →
          ∃ ws w, writes (ms (world q)) = ws ++ [w] ∧
                  w_kind w = FinalFlush ∧ w_time w = now' ∧
                  w_groups w !! [("job", job)] = Some (newGroup families now)).
Proof.
  intros req Hrun Hm Hc Hj Hv.
  pose proof (Inv_run float64 formatValue actual onDisk t0 ls p Hrun) as HI.
  assert (Ha : alive p = true) by (by unfold alive; rewrite Hm).
  assert (Hst : stopped (ms (world p)) = false).
  { apply (inv_running _ _ _ _ p HI Ha). by rewrite Hm. }
  destruct (process_push_valid now true [("job", job)] families (ms (world p)) Hst Hv)
    as (Hresp & Hst1 & Hg1).
  pose proof (process_file now true (ReqPush [("job", job)] families)
                (ms (world p))) as Hf1.
  pose proof (ServeHTTP_put_job job families now rt (world p) Hj) as HS.
  fold req in HS.
  pose proof (step_handle p i now rt req Ha Hc) as H1.
  rewrite HS in H1. cbn [fst snd fmap list_fmap app] in H1. rewrite Hresp in H1.
  remember (process now true (ReqPush [("job", job)] families) (ms (world p))).1
    as S1 eqn:ES1.
  clear HS ES1.
  destruct (Shutdown_final_write now' ok S1 Hst1) as [Hg2 Hw2].
  eexists. split; [|split; [|split; [|split]]].
  - cbn [Main.run]. rewrite H1. cbn [mbind option_bind].
    rewrite step_sleep by exact Hm. cbn [mbind option_bind].
    rewrite step_shutdown by reflexivity. cbn [mbind option_bind].
    rewrite step_return by reflexivity. reflexivity.
  - reflexivity.
  - cbn [trace mainTo withWorld withConnections]. rewrite !elem_of_app.
    left. left. left. left. right. by left.
  - cbn [world ms mainTo withWorld withConnections].
    by rewrite Hg2, Hg1, lookup_insert_eq.
  - intros He. cbn [world ms mainTo withWorld withConnections].
    rewrite Hw2 by (unfold persistenceEnabled in *; by rewrite Hf1).
    eexists _, _. split; [reflexivity|]. cbn [w_kind w_time w_groups].
    by rewrite Hg1, lookup_insert_eq.
Qed.

(** *** Once only *)












End LifeCycle.


Lemma registry_is_fixed_witness :
  reg_name <$> registry (globals (world Examples.afterGraceful)) =
    [ "instance_goroutine_count"; "instance_allocated_bytes";
      "instance_total_allocated_bytes"; "instance_heap_allocated_bytes";
      "instance_gc_high_watermark_bytes"; "instance_gc_total_pause_ns";
      "instance_gc_count" ].
Proof.
  assert (Hrun : Main.run Examples.float Examples.format Examples.graceful
                   (Main.start Examples.float Examples.withFile Missing 0)
                 = Some Examples.afterGraceful) by (vm_compute; reflexivity).
  destruct (registry_is_fixed Examples.float Examples.format Examples.withFile
              Missing 0 Examples.graceful Examples.afterGraceful Hrun) as [H _].
  rewrite H. reflexivity.
Defined.

(** A connection is accepted before the signal and has not been served
    when [Serve] returns. *)
Definition pendingPush : list (Label Z) :=
  [ LListen None; LGo; LNotify;
    LAccept {| method := "PUT"; path := "/metrics/job/" +:+ "a";
               body := Some [Examples.gaugeFamily "foo" 1] |};
    LSignal true; LClose; LServeReturn Examples.closedListener ].

Definition sleeping : Process Z :=
  default (Main.start Examples.float Examples.withFile Missing 0)
    (Main.run Examples.float Examples.format pendingPush
       (Main.start Examples.float Examples.withFile Missing 0)).

Lemma grace_period_push_is_flushed_witness :
  ∃ q ws w,
    Main.run Examples.float Examples.format
      [ LHandle 0 1 {| ReadMemStats := zeroMemStats; NumGoroutine := 4 |};
        LSleep; LShutdown 2 true; LReturn ] sleeping = Some q ∧
    writes (ms (world q)) = ws ++ [w] ∧ w_kind w = FinalFlush ∧
    w_groups w !! Examples.jobA = Some (newGroup [Examples.gaugeFamily "foo" 1] 1).
Proof.
  assert (Hrun : Main.run Examples.float Examples.format pendingPush
                   (Main.start Examples.float Examples.withFile Missing 0)
                 = Some sleeping) by (vm_compute; reflexivity).
  destruct (grace_period_push_is_flushed Examples.float Examples.format
              Examples.withFile Missing 0 pendingPush sleeping 0 "a"
              [Examples.gaugeFamily "foo" 1] 1
              {| ReadMemStats := zeroMemStats; NumGoroutine := 4 |} 2 true
              Hrun eq_refl eq_refl eq_refl eq_refl)
    as (q & H1 & _ & _ & _ & H5).
  destruct (H5 eq_refl) as (ws & w & Hw & Hk & _ & Hg).
  by exists q, ws, w.
Defined.


End Extra.
